(** * neo4j/session.py: sessions, transactions, records and latency samples

    A shallow embedding of the Bolt driver's session module.  Python objects
    become records, attribute assignment becomes explicit state passing over
    a [world], exceptions become the [Raise] outcome, a call that blocks for
    ever becomes [Hang].

    Names follow the source: [Session.run], [Session.new_transaction],
    [Transaction.commit], [Record.__getitem__], [BenchTest.latency], ... *)

From Stdlib Require Import ZArith Lia Floats.
From stdpp Require Import base strings list gmap.

Local Open Scope string_scope.
Local Open Scope list_scope.
Local Open Scope Z_scope.

(** ** Exceptions

    The exception classes the module can surface.  The specification calls
    [CypherError] the query-failure error, [AssertionError] (raised by the
    [assert] guards) the invariant-violation error, [AttributeError] the
    field-not-found error and [TypeError] the index-type error. *)
Inductive exn : Type :=
| CypherError
| AssertionError
| AttributeError
| TypeError
| IndexError
| KeyError
| UnicodeDecodeError.

(** ** What the module imports

    [hydrated] comes from [.typesystem], [perf_counter] from [.compat]; the
    UTF-8 codec and the attributes that every object carries belong to the
    interpreter.  None of them is defined in session.py, so the development
    is parametric in them. *)
Class Platform : Type := {
  (** a value as it arrives on the wire *)
  raw : Type;
  (** a value after hydration *)
  value : Type;
  (** [typesystem.hydrated] *)
  hydrated : raw -> value;
  (** the numbers [compat.perf_counter] returns: floating-point numbers *)
  time : Type;
  (** [compat.perf_counter]: the reading returned by the n-th call *)
  perf_counter : nat -> time;
  (** [x - y] on two readings, rounded as the interpreter rounds it *)
  time_sub : time -> time -> time;
  (** [x <= y] on readings and their differences *)
  time_le : time -> time -> Prop;
  (** [bytes.decode("UTF-8")]; [None] stands for UnicodeDecodeError *)
  utf8_decode : list Byte.byte -> option string;
  (** names that [object] and the interpreter resolve on every instance
      ([__class__], [__dict__], [__hash__], ...) *)
  interpreter_attr : string -> bool
}.

(** ** Python sequences *)

(** [l[i]] for a list or tuple: a negative index counts from the end, an
    index outside [-len(l) .. len(l)-1] raises IndexError. *)
Definition seq_getitem {A : Type} (l : list A) (i : Z) : exn + A :=
  let n := Z.of_nat (length l) in
  let j := if i <? 0 then i + n else i in
  if (j <? 0) || (n <=? j) then inl IndexError
  else match l !! Z.to_nat j with
       | Some x => inr x
       | None => inl IndexError
       end.

(** [l.index(x)]: the first position holding [x]; [None] stands for
    ValueError. *)
Fixpoint list_index (l : list string) (x : string) : option nat :=
  match l with
  | [] => None
  | y :: l' => if decide (y = x) then Some O else S <$> list_index l' x
  end.

(** ** Latency samples *)

Module Latency.
Section WithPlatform.
Context {P : Platform}.
Record t : Type := mk { overall : time; network : time; wait : time }.
End WithPlatform.
End Latency.

Module BenchTest.
Section WithPlatform.
Context {P : Platform}.

(** The six class attributes start as [None]. *)
Record t : Type := mk {
  init : option time;
  start_send : option time;
  end_send : option time;
  start_recv : option time;
  end_recv : option time;
  done : option time
}.

(** [BenchTest()] *)
Definition new : t := mk None None None None None None.

Definition set_init (x : time) (b : t) : t :=
  mk (Some x) (start_send b) (end_send b) (start_recv b) (end_recv b) (done b).
Definition set_start_send (x : time) (b : t) : t :=
  mk (init b) (Some x) (end_send b) (start_recv b) (end_recv b) (done b).
Definition set_end_send (x : time) (b : t) : t :=
  mk (init b) (start_send b) (Some x) (start_recv b) (end_recv b) (done b).
Definition set_start_recv (x : time) (b : t) : t :=
  mk (init b) (start_send b) (end_send b) (Some x) (end_recv b) (done b).
Definition set_end_recv (x : time) (b : t) : t :=
  mk (init b) (start_send b) (end_send b) (start_recv b) (Some x) (done b).
Definition set_done (x : time) (b : t) : t :=
  mk (init b) (start_send b) (end_send b) (start_recv b) (end_recv b) (Some x).

(** [latency]: subtracting a timestamp that is still [None] raises
    TypeError. *)
Definition latency (self : t) : exn + Latency.t :=
  match init self, start_send self, end_send self,
        start_recv self, end_recv self, done self with
  | Some i, Some ss, Some es, Some sr, Some er, Some d =>
      inr (Latency.mk (time_sub d i) (time_sub er ss) (time_sub sr es))
  | _, _, _, _, _, _ => inl TypeError
  end.

(** The send phase, which [latency] does not report. *)
Definition send_phase (self : t) : option time :=
  match start_send self, end_send self with
  | Some ss, Some es => Some (time_sub es ss)
  | _, _ => None
  end.

(** The timestamps are all set and in the order [run] takes them. *)
Definition ordered (self : t) : Prop :=
  exists i ss es sr er d,
    self = mk (Some i) (Some ss) (Some es) (Some sr) (Some er) (Some d) /\
    time_le i ss /\ time_le ss es /\ time_le es sr /\ time_le sr er
    /\ time_le er d.

End WithPlatform.
End BenchTest.

(** ** Result records *)

Module Record.
Section WithPlatform.
Context {P : Platform}.

(** [Record(fields, values)]: the two instance attributes set by
    [__init__]. *)
Record t : Type := mk {
  __fields__ : list string;
  __values__ : list value
}.

(** What may stand between the square brackets of [record[item]]: a string,
    an integer ([bool] included, as Python counts it among the integers), a
    float [mantissa * 2 ^ exponent], or [None]. *)
Inductive item : Type :=
| Str (s : string)
| Int (z : Z)
| Float (mantissa exponent : Z)
| NoneItem.

(** What an attribute lookup on a [Record] can evaluate to. *)
Inductive attr : Type :=
| Field (v : value)                  (* a field's value, from [__getattr__] *)
| FieldsAttr (fields : list string)  (* the instance attribute [__fields__] *)
| ValuesAttr (values : list value)   (* the instance attribute [__values__] *)
| ClassAttr (name : string)          (* a name bound in the class body *)
| ObjectAttr (name : string).        (* a name the interpreter resolves *)

(** The names bound by the class statement: its methods and docstring. *)
Definition class_attrs : list string :=
  ["__init__"; "__repr__"; "__eq__"; "__ne__"; "__len__"; "__getitem__";
   "__getattr__"; "__doc__"].

(** [len(record)] *)
Definition __len__ (self : t) : nat := length (__fields__ self).

(** [__getattr__(self, item)]: the hook Python calls when ordinary lookup
    has found nothing. *)
Definition __getattr__ (self : t) (name : string) : exn + attr :=
  match list_index (__fields__ self) name with
  | None => inl AttributeError
  | Some i =>
      match seq_getitem (__values__ self) (Z.of_nat i) with
      | inl e => inl e
      | inr v => inr (Field v)
      end
  end.

(** Ordinary attribute lookup, without the [__getattr__] hook: the instance
    dictionary, then the class, then [object]. *)
Definition ordinary_lookup (self : t) (name : string) : option attr :=
  if decide (name = "__fields__") then Some (FieldsAttr (__fields__ self))
  else if decide (name = "__values__") then Some (ValuesAttr (__values__ self))
  else if decide (name ∈ class_attrs) then Some (ClassAttr name)
  else if interpreter_attr name then Some (ObjectAttr name)
  else None.

(** [getattr(self, name)], which is also [self.name]: ordinary lookup
    first, [__getattr__] only when that fails. *)
Definition getattr (self : t) (name : string) : exn + attr :=
  match ordinary_lookup self name with
  | Some a => inr a
  | None => __getattr__ self name
  end.

(** [record[item]] *)
Definition __getitem__ (self : t) (i : item) : exn + attr :=
  match i with
  | Str s => getattr self s
  | Int z =>
      match seq_getitem (__fields__ self) z with
      | inl e => inl e
      | inr name => getattr self name
      end
  | Float _ _ | NoneItem => inl TypeError
  end.

(** A name that ordinary lookup resolves hides a field of that name. *)
Definition shadowed (name : string) : bool :=
  bool_decide (name = "__fields__") || bool_decide (name = "__values__")
  || bool_decide (name ∈ class_attrs) || interpreter_attr name.

(** Iterating over a record, as [tuple(self)] in [__eq__] does.  The class
    has no [__iter__], so Python asks for [self[0]], [self[1]], ... and stops
    at the first IndexError; any other exception goes through.  [None] means
    that [fuel] was too small. *)
Fixpoint iterate (self : t) (fuel : nat) (i : nat)
  : option (exn + list attr) :=
  match fuel with
  | O => None
  | S fuel' =>
      match __getitem__ self (Int (Z.of_nat i)) with
      | inl IndexError => Some (inr [])
      | inl e => Some (inl e)
      | inr a =>
          match iterate self fuel' (S i) with
          | Some (inr l) => Some (inr (a :: l))
          | o => o
          end
      end
  end.

(** [tuple(self)] *)
Definition tuple (self : t) : option (exn + list attr) :=
  iterate self (S (length (__fields__ self))) 0.

(** [repr(v)] of a hydrated value, which the interpreter and the value's
    class supply. *)
Variable repr : value -> string.

(** The loop of [__repr__]: one ["%s=%r" % (field, values[i])] per field,
    [i] counting from the position given. *)
Fixpoint repr_items (fields : list string) (values : list value) (i : nat)
  : exn + list string :=
  match fields with
  | [] => inr []
  | field :: fields' =>
      match seq_getitem values (Z.of_nat i) with
      | inl e => inl e
      | inr v =>
          match repr_items fields' values (S i) with
          | inl e => inl e
          | inr s => inr (String.append field (String.append "=" (repr v)) :: s)
          end
      end
  end.

(** [repr(record)] *)
Definition __repr__ (self : t) : exn + string :=
  match repr_items (__fields__ self) (__values__ self) 0 with
  | inl e => inl e
  | inr s =>
      inr (String.append "<Record " (String.append (String.concat " " s) ">"))
  end.

End WithPlatform.
End Record.

(** ** The connection and its responses

    session.py imports [connect], [Response], [RUN] and [PULL_ALL] from
    [.connection], which is not part of the sources at hand.  The module
    below supplies what [Session.run] needs of it. *)

Module Connection.
Section WithPlatform.
Context {P : Platform}.

(** Modelled from the spec: the request kinds [RUN] and [PULL_ALL] of
    connection.py, "a query-execution request carrying (statementText,
    parameterMap), and a parameterless result-stream request". *)
Inductive request : Type :=
| RUN (statement : string) (parameters : gmap string raw)
| PULL_ALL.

(** Modelled from the spec: the messages of the peer, which connection.py
    turns into callback calls.  [SUCCESS] (header or footer) and [FAILURE]
    carry a metadata dictionary, of which the session reads the entry
    ["fields"], "an ordered field-name list"; [RECORD] carries the "raw
    (unhydrated) positional values" of one row. *)
Inductive message : Type :=
| SUCCESS (metadata : gmap string (list string))
| RECORD (values : list raw)
| FAILURE (metadata : gmap string (list string)).

(** Modelled from the spec: the class [Response] of connection.py, "one
    outstanding request's eventual outcome" with "optional callback slots".
    [H] is the type of the callables stored in the slots; [made_by] tells
    apart the [Response] objects of different calls, as object identity does
    in Python. *)
Record Response {H : Type} : Type := mkResponse {
  made_by : nat;
  on_record : option H;
  on_success : option H;
  on_failure : option H
}.
Global Arguments Response : clear implicits.
Global Arguments mkResponse {H}.

(** What the session does with its connection, in the order it does it. *)
Inductive event {H : Type} : Type :=
| Append (q : request) (r : Response H)
| Send
| Consume (r : Response H)
| Deliver (r : Response H) (m : message).
Global Arguments event : clear implicits.

(** Modelled from the spec: the connection of connection.py, "a duplex
    channel supporting (a) enqueue-request, (b) flush, (c)
    advance-until(response-terminal)".  [incoming] holds the messages the
    peer is going to produce, oldest first; [responses] the responses not yet
    terminal, in submission order; [outgoing] the requests queued and not yet
    flushed; [sent] the requests written to the peer; [log] the history. *)
Record t {H : Type} : Type := mk {
  incoming : list message;
  responses : list (Response H);
  outgoing : list request;
  sent : list request;
  log : list (event H)
}.
Global Arguments t : clear implicits.
Global Arguments mk {H}.

Section WithHandlers.
Context {H E : Type} `{EqDecision H}.

#[global] Instance Response_eq_dec : EqDecision (Response H).
Proof. solve_decision. Defined.

(** How a stored callable [h] of response [r] acts, when called with the
    content of message [m], on the state [E] its closure can reach. *)
Variable invoke : Response H -> H -> message -> E -> exn + E.

(** Modelled from the spec: [Connection.append(signature, fields,
    response)], "accepts queued outbound requests tagged with a response
    receiver". *)
Definition append (q : request) (r : Response H) (self : t H) : t H :=
  mk (incoming self) (responses self ++ [r]) (outgoing self ++ [q])
     (sent self) (log self ++ [Append q r]).

(** Modelled from the spec: [Connection.send()], "flushes queued
    requests". *)
Definition send (self : t H) : t H :=
  mk (incoming self) (responses self) [] (sent self ++ outgoing self)
     (log self ++ [Send]).

(** Modelled from the spec: the slot of [r] that a message is meant for,
    "header metadata, zero-or-more record payloads, and terminal
    success/failure". *)
Definition slot (r : Response H) (m : message) : option H :=
  match m with
  | SUCCESS _ => on_success r
  | RECORD _ => on_record r
  | FAILURE _ => on_failure r
  end.

(** Modelled from the spec: [SUCCESS] and [FAILURE] end a response,
    [RECORD] does not. *)
Definition summary (m : message) : bool :=
  match m with
  | RECORD _ => false
  | SUCCESS _ | FAILURE _ => true
  end.

(** Modelled from the spec: calling the slot; the slots are optional, and
    an empty one ignores the message. *)
Definition dispatch (r : Response H) (m : message) (e : E) : exn + E :=
  match slot r m with
  | Some h => invoke r h m e
  | None => inr e
  end.

(** The result of driving the connection: the response became terminal, a
    callback raised, or the peer fell silent and the caller blocks; each time
    with the connection and the closures' state as they are by then. *)
Inductive driven : Type :=
| Done (c : t H) (e : E)
| Raising (x : exn) (c : t H) (e : E)
| Blocked (c : t H) (e : E).

(** The connection as it is when the driving stops. *)
Definition reached (o : driven) : t H :=
  match o with
  | Done c _ | Raising _ c _ | Blocked c _ => c
  end.

(** Modelled from the spec: the loop of [Response.consume()], which "drives
    the Connection until this response reaches a terminal state".  Each
    message goes to the oldest response not yet terminal ("strict FIFO"); a
    summary message makes that response terminal ("terminal once either
    footer or failure has fired").  [msgs] is the part of [incoming] not yet
    read; it is stored back when the loop stops. *)
Fixpoint drive (self : Response H) (msgs : list message) (c : t H) (e : E)
  : driven :=
  if negb (bool_decide (self ∈ responses c)) then
    Done (mk msgs (responses c) (outgoing c) (sent c) (log c)) e
  else
    match msgs with
    | [] => Blocked (mk [] (responses c) (outgoing c) (sent c) (log c)) e
    | m :: msgs' =>
        match responses c with
        | [] => Done (mk msgs [] (outgoing c) (sent c) (log c)) e
        | r :: rest =>
            let c' := mk msgs' (if summary m then rest else r :: rest)
                         (outgoing c) (sent c) (log c ++ [Deliver r m]) in
            match dispatch r m e with
            | inl x => Raising x c' e
            | inr e' => drive self msgs' c' e'
            end
        end
    end.

(** Modelled from the spec: [Response.consume()]. *)
Definition consume (self : Response H) (c : t H) (e : E) : driven :=
  drive self (incoming c)
    (mk (incoming c) (responses c) (outgoing c) (sent c)
        (log c ++ [Consume self])) e.

End WithHandlers.
End WithPlatform.
End Connection.

(** ** The closures of [Session.run] *)

Module Closure.
Section WithPlatform.
Context {P : Platform}.

(** The local variables of one call of [run] that its nested functions
    reach: the list [fields], the list [records] and the sample [t].  Every
    [Record] that [on_record] builds holds the list object [fields] itself,
    not a copy of it; [records] therefore keeps the value tuples, and the
    records are read off against [fields] when [run] returns. *)
Record cells : Type := mkCells {
  fields : list string;
  records : list (list value);
  t : BenchTest.t
}.

(** The four nested functions, as values stored in response slots. *)
Inductive name : Type := OnHeader | OnRecord | OnFooter | OnFailure.

#[global] Instance name_eq_dec : EqDecision name.
Proof. solve_decision. Defined.

(** The state a closure acts on: its cells and the number of clock
    readings taken so far. *)
Definition state : Type := cells * nat.

(** [fields.extend(metadata["fields"]); t.start_recv = perf_counter()] *)
Definition on_header (metadata : gmap string (list string)) (s : state)
  : exn + state :=
  match metadata !! "fields" with
  | None => inl KeyError
  | Some names =>
      inr (mkCells (fields s.1 ++ names) (records s.1)
             (BenchTest.set_start_recv (perf_counter s.2) (t s.1)),
           S s.2)
  end.

(** [records.append(Record(fields, tuple(map(hydrated, values))))] *)
Definition on_record (values : list raw) (s : state) : exn + state :=
  inr (mkCells (fields s.1) (records s.1 ++ [map hydrated values]) (t s.1),
       s.2).

(** [t.end_recv = perf_counter()] *)
Definition on_footer (metadata : gmap string (list string)) (s : state)
  : exn + state :=
  inr (mkCells (fields s.1) (records s.1)
         (BenchTest.set_end_recv (perf_counter s.2) (t s.1)),
       S s.2).

(** [raise CypherError("FAILURE")] *)
Definition on_failure (metadata : gmap string (list string)) (s : state)
  : exn + state :=
  inl CypherError.

(** Calling a stored closure with the content of a message.  A closure
    handed an argument of the wrong shape fails with TypeError; [run] never
    stores one where that could happen. *)
Definition call (h : name) (m : Connection.message) (s : state)
  : exn + state :=
  match h, m with
  | OnHeader, Connection.SUCCESS metadata => on_header metadata s
  | OnRecord, Connection.RECORD values => on_record values s
  | OnFooter, Connection.SUCCESS metadata => on_footer metadata s
  | OnFailure, Connection.FAILURE metadata => on_failure metadata s
  | OnHeader, Connection.FAILURE metadata => on_header metadata s
  | OnFooter, Connection.FAILURE metadata => on_footer metadata s
  | OnFailure, Connection.SUCCESS metadata => on_failure metadata s
  | _, _ => inl TypeError
  end.

(** The cells of a call of [run] that has been abandoned: the call raised,
    so neither its [records] nor its [t] was handed to anybody. *)
Definition abandoned : cells := mkCells [] [] BenchTest.new.

(** [invoke current r h m s]: closure [h], stored in response [r], is
    called while call number [current] of [run] is consuming.  A closure of
    that call acts on its cells; a closure left behind by an earlier call
    acts on cells nobody can reach, so that only its clock readings and its
    exception are felt. *)
Definition invoke (current : nat) (r : Connection.Response name) (h : name)
  (m : Connection.message) (s : state) : exn + state :=
  if decide (Connection.made_by r = current) then call h m s
  else match call h m (abandoned, s.2) with
       | inl x => inl x
       | inr s' => inr (s.1, s'.2)
       end.

End WithPlatform.
End Closure.

(** ** Sessions and transactions *)

Section Driver.
Context {P : Platform}.

(** A statement is text, or bytes still to be decoded. *)
Inductive statement : Type :=
| Text (s : string)
| Bytes (b : list Byte.byte).

(** [Transaction]: the class attributes [success] and [closed] start as
    [False].  The model has one session, so the back reference [session] of
    every transaction is that session and is not stored. *)
Record Transaction : Type := mkTransaction {
  success : bool;
  closed : bool
}.

(** [Session]: [transaction] is [None] or the address of a [Transaction]. *)
Record Session : Type := mkSession {
  connection : Connection.t Closure.name;
  transaction : option nat;
  bench_tests : list BenchTest.t
}.

(** The session, the [Transaction] objects created so far (an address is a
    position in [heap]), the number of clock readings taken and the number of
    calls of [Session.run] made. *)
Record world : Type := mkWorld {
  session : Session;
  heap : list Transaction;
  ticks : nat;
  calls : nat
}.

(** How a call ends: it returns a value, it raises, or it blocks for ever
    in [consume]; each time in the state reached. *)
Inductive outcome (A : Type) : Type :=
| Return (a : A) (w : world)
| Raise (x : exn) (w : world)
| Hang (w : world).
Global Arguments Return {A}.
Global Arguments Raise {A}.
Global Arguments Hang {A}.

Definition after {A : Type} (o : outcome A) : world :=
  match o with
  | Return _ w | Raise _ w | Hang w => w
  end.

(** [Session(connection)] *)
Definition Session_new (c : Connection.t Closure.name) : Session :=
  mkSession c None [].

(** [if isinstance(statement, bytes): statement.decode("UTF-8")] *)
Definition as_text (s : statement) : option string :=
  match s with
  | Text s => Some s
  | Bytes b => utf8_decode b
  end.

(** The two responses [run] creates in call number [k]. *)
Definition run_response (k : nat) : Connection.Response Closure.name :=
  Connection.mkResponse k None (Some Closure.OnHeader)
    (Some Closure.OnFailure).

Definition pull_all_response (k : nat) : Connection.Response Closure.name :=
  Connection.mkResponse k (Some Closure.OnRecord) (Some Closure.OnFooter)
    (Some Closure.OnFailure).

(** The state in which [run] leaves when [consume] does not return. *)
Definition unwound (w : world) (c : Connection.t Closure.name)
  (s : Closure.state) : world :=
  mkWorld (mkSession c (transaction (session w)) (bench_tests (session w)))
    (heap w) s.2 (S (calls w)).

(** [Session.run(statement, parameters=None)] *)
Definition Session_run (stmt : statement)
  (parameters : option (gmap string raw)) (w : world)
  : outcome (list Record.t) :=
  match as_text stmt with
  | None => Raise UnicodeDecodeError w
  | Some text =>
      let parameters := default ∅ parameters in
      let k := calls w in
      let n := ticks w in
      let t := BenchTest.set_init (perf_counter n) BenchTest.new in
      let run_response := run_response k in
      let pull_all_response := pull_all_response k in
      let c := Connection.append (Connection.RUN text parameters)
                 run_response (connection (session w)) in
      let c := Connection.append Connection.PULL_ALL pull_all_response c in
      let t := BenchTest.set_start_send (perf_counter (n + 1)%nat) t in
      let c := Connection.send c in
      let t := BenchTest.set_end_send (perf_counter (n + 2)%nat) t in
      let s := (Closure.mkCells [] [] t, (n + 3)%nat) in
      match Connection.consume (Closure.invoke k) run_response c s with
      | Connection.Blocked c s => Hang (unwound w c s)
      | Connection.Raising x c s => Raise x (unwound w c s)
      | Connection.Done c s =>
          match Connection.consume (Closure.invoke k) pull_all_response c s
          with
          | Connection.Blocked c s => Hang (unwound w c s)
          | Connection.Raising x c s => Raise x (unwound w c s)
          | Connection.Done c s =>
              let t := BenchTest.set_done (perf_counter s.2) (Closure.t s.1) in
              Return
                (map (Record.mk (Closure.fields s.1)) (Closure.records s.1))
                (mkWorld
                   (mkSession c (transaction (session w))
                      (bench_tests (session w) ++ [t]))
                   (heap w) (S s.2) (S (calls w)))
          end
      end
  end.

(** [Transaction(session)]: [__init__] runs BEGIN; the object gets its
    address once the constructor has returned, for an object whose
    constructor raised is handed to nobody. *)
Definition Transaction_new (w : world) : outcome nat :=
  match Session_run (Text "BEGIN") None w with
  | Return _ w' =>
      Return (length (heap w'))
        (mkWorld (session w') (heap w' ++ [mkTransaction false false])
           (ticks w') (calls w'))
  | Raise x w' => Raise x w'
  | Hang w' => Hang w'
  end.

(** [Session.new_transaction()].  A [Transaction] defines neither
    [__bool__] nor [__len__], so [not self.transaction] holds exactly when
    the slot is [None]. *)
Definition Session_new_transaction (w : world) : outcome nat :=
  match transaction (session w) with
  | Some _ => Raise AssertionError w
  | None =>
      match Transaction_new w with
      | Return tx w' =>
          Return tx
            (mkWorld
               (mkSession (connection (session w')) (Some tx)
                  (bench_tests (session w')))
               (heap w') (ticks w') (calls w'))
      | Raise x w' => Raise x w'
      | Hang w' => Hang w'
      end
  end.

(** Writing the object at address [tx] back after an attribute of it was
    assigned. *)
Definition store (tx : nat) (o : Transaction) (w : world) : world :=
  mkWorld (session w) (<[tx := o]> (heap w)) (ticks w) (calls w).

(** [Transaction.run(statement, parameters=None)].  An address that holds
    no object has no method to call, which is an AttributeError; programs
    only hold the addresses [new_transaction] gave them. *)
Definition Transaction_run (tx : nat) (stmt : statement)
  (parameters : option (gmap string raw)) (w : world)
  : outcome (list Record.t) :=
  match heap w !! tx with
  | None => Raise AttributeError w
  | Some self =>
      if closed self then Raise AssertionError w
      else Session_run stmt parameters w
  end.

(** [Transaction.close()] *)
Definition Transaction_close (tx : nat) (w : world) : outcome unit :=
  match heap w !! tx with
  | None => Raise AttributeError w
  | Some self =>
      if closed self then Raise AssertionError w
      else
        match Session_run (Text (if success self then "COMMIT"
                                 else "ROLLBACK")) None w with
        | Return _ w' =>
            Return tt
              (mkWorld
                 (mkSession (connection (session w')) None
                    (bench_tests (session w')))
                 (<[tx := mkTransaction (success self) true]> (heap w'))
                 (ticks w') (calls w'))
        | Raise x w' => Raise x w'
        | Hang w' => Hang w'
        end
  end.

(** [tx.success = b], which user code may do any number of times. *)
Definition Transaction_set_success (tx : nat) (b : bool) (w : world)
  : outcome unit :=
  match heap w !! tx with
  | None => Raise AttributeError w
  | Some self => Return tt (store tx (mkTransaction b (closed self)) w)
  end.

(** [Transaction.commit()] *)
Definition Transaction_commit (tx : nat) (w : world) : outcome unit :=
  match heap w !! tx with
  | None => Raise AttributeError w
  | Some self =>
      Transaction_close tx (store tx (mkTransaction true (closed self)) w)
  end.

(** [Transaction.rollback()] *)
Definition Transaction_rollback (tx : nat) (w : world) : outcome unit :=
  match heap w !! tx with
  | None => Raise AttributeError w
  | Some self =>
      Transaction_close tx (store tx (mkTransaction false (closed self)) w)
  end.

(** ** Programs over one session *)

(** The calls a program can make on a session and its transactions. *)
Inductive call : Type :=
| session_run (stmt : statement) (parameters : option (gmap string raw))
| session_new_transaction
| transaction_run (tx : nat) (stmt : statement)
    (parameters : option (gmap string raw))
| transaction_commit (tx : nat)
| transaction_rollback (tx : nat)
| transaction_close (tx : nat)
| transaction_set_success (tx : nat) (b : bool).

Definition forget {A : Type} (o : outcome A) : outcome unit :=
  match o with
  | Return _ w => Return tt w
  | Raise x w => Raise x w
  | Hang w => Hang w
  end.

Definition exec (c : call) (w : world) : outcome unit :=
  match c with
  | session_run stmt parameters => forget (Session_run stmt parameters w)
  | session_new_transaction => forget (Session_new_transaction w)
  | transaction_run tx stmt parameters =>
      forget (Transaction_run tx stmt parameters w)
  | transaction_commit tx => Transaction_commit tx w
  | transaction_rollback tx => Transaction_rollback tx w
  | transaction_close tx => Transaction_close tx w
  | transaction_set_success tx b => Transaction_set_success tx b w
  end.

(** A program is a list of calls; it goes on after a call that returned or
    raised, and stops at a call that blocks. *)
Fixpoint exec_all (cs : list call) (w : world) : world :=
  match cs with
  | [] => w
  | c :: cs' =>
      match exec c w with
      | Return _ w' | Raise _ w' => exec_all cs' w'
      | Hang w' => w'
      end
  end.

(** The world in which a session has just been built over a connection on
    which nothing was queued yet; [msgs] is what the peer is going to say
    and [n] the number of clock readings taken before. *)
Definition new_world (msgs : list Connection.message) (n : nat) : world :=
  mkWorld (Session_new (Connection.mk msgs [] [] [] [])) [] n 0.

(** The worlds programs can reach. *)
Definition reachable (w : world) : Prop :=
  exists msgs n cs, w = exec_all cs (new_world msgs n).

(** No response waiting on the connection was made by a call of [run] that
    is still to come. *)
Definition fresh (w : world) : Prop :=
  Forall (fun r => (Connection.made_by r < calls w)%nat)
    (Connection.responses (connection (session w))).

(** The transaction at address [tx] exists and is open, or is closed. *)
Definition is_open (tx : nat) (w : world) : Prop :=
  exists o, heap w !! tx = Some o /\ closed o = false.

Definition is_closed (tx : nat) (w : world) : Prop :=
  exists o, heap w !! tx = Some o /\ closed o = true.

(** The slot holds exactly the open transaction, if there is one. *)
Definition slot_inv (w : world) : Prop :=
  forall tx : nat, transaction (session w) = Some tx <-> is_open tx w.

(** The peer accepts a statement: it answers the RUN request with a header
    naming the fields, and the PULL_ALL request with the rows and a
    footer. *)
Definition accepting (rows : list (list raw))
  (header footer : gmap string (list string))
  (rest : list Connection.message) : list Connection.message :=
  Connection.SUCCESS header
    :: map Connection.RECORD rows ++ Connection.SUCCESS footer :: rest.

(** An event that delivers a message to [r], or to another response. *)
Definition delivery_to (r : Connection.Response Closure.name)
  (ev : Connection.event Closure.name) : Prop :=
  exists m, ev = Connection.Deliver r m.

Definition delivery_beside (r : Connection.Response Closure.name)
  (ev : Connection.event Closure.name) : Prop :=
  exists r' m, ev = Connection.Deliver r' m /\ r' <> r.

(** An event of call number [k] consuming: a message is delivered to one of
    the responses [l], whose callback returns. *)
Definition delivered (k : nat) (l : list (Connection.Response Closure.name))
  (ev : Connection.event Closure.name) : Prop :=
  exists r m, ev = Connection.Deliver r m /\ r ∈ l /\
    exists s s', Connection.dispatch (Closure.invoke k) r m s = inr s'.


(** How consuming [self] in call number [k] ends, seen from the log: only
    responses of [within] were delivered to; [self] became terminal by the
    last delivery and [post] is what still waits, or the last delivery
    raised, or the peer fell silent. *)
Definition traced (k : nat) (within : list (Connection.Response Closure.name))
  (self : Connection.Response Closure.name)
  (post : list (Connection.Response Closure.name))
  (c : Connection.t Closure.name)
  (o : Connection.driven (H := Closure.name) (E := Closure.state)) : Prop :=
  match o with
  | Connection.Done c' s' =>
      exists ds m,
        Connection.log c' = Connection.log c ++ ds ++ [Connection.Deliver self m]
        /\ Connection.summary m = true
        /\ Forall (delivered k within) (ds ++ [Connection.Deliver self m])
        /\ Connection.responses c' = post
        /\ Connection.outgoing c' = Connection.outgoing c
        /\ Connection.sent c' = Connection.sent c
  | Connection.Raising x c' s' =>
      exists ds r m,
        Connection.log c' = Connection.log c ++ ds ++ [Connection.Deliver r m]
        /\ Forall (delivered k within) ds
        /\ r ∈ within
        /\ Connection.dispatch (Closure.invoke k) r m s' = inl x
        /\ Connection.outgoing c' = Connection.outgoing c
        /\ Connection.sent c' = Connection.sent c
  | Connection.Blocked c' s' =>
      exists ds,
        Connection.log c' = Connection.log c ++ ds
        /\ Forall (delivered k within) ds
        /\ Connection.outgoing c' = Connection.outgoing c
        /\ Connection.sent c' = Connection.sent c
  end.

(** The connection as [run] has it when it starts consuming (both requests
    queued, then flushed), and the closures' state by then. *)
Definition prepared (text : string) (parameters : gmap string raw)
  (w : world) : Connection.t Closure.name :=
  Connection.send
    (Connection.append Connection.PULL_ALL (pull_all_response (calls w))
       (Connection.append (Connection.RUN text parameters)
          (run_response (calls w)) (connection (session w)))).

Definition started (w : world) : Closure.state :=
  (Closure.mkCells [] []
     (BenchTest.set_end_send (perf_counter (ticks w + 2)%nat)
        (BenchTest.set_start_send (perf_counter (ticks w + 1)%nat)
           (BenchTest.set_init (perf_counter (ticks w)) BenchTest.new))),
   (ticks w + 3)%nat).

(** The clock never runs backwards. *)
Definition monotonic : Prop :=
  forall i j : nat,
    (i <= j)%nat -> time_le (perf_counter i) (perf_counter j).

(** What subtraction with rounding keeps of exact subtraction: the
    difference of two readings grows with the first and shrinks with the
    second.  IEEE-754 subtraction has this property on the readings of a
    clock, which are finite numbers, because rounding is monotone;
    identities between differences it does not keep. *)
Definition subtraction_monotone : Prop :=
  forall i j k l : nat,
    time_le (perf_counter i) (perf_counter j) ->
    time_le (perf_counter l) (perf_counter k) ->
    time_le (time_sub (perf_counter i) (perf_counter k))
      (time_sub (perf_counter j) (perf_counter l)).




(** Two worlds that differ at most in the transactions and the slot. *)
Definition same_io (w w' : world) : Prop :=
  connection (session w) = connection (session w')
  /\ bench_tests (session w) = bench_tests (session w')
  /\ ticks w = ticks w'
  /\ calls w = calls w'.

(** A sample on which all six timestamps are set. *)
Definition complete (b : BenchTest.t) : Prop :=
  exists i ss es sr er d,
    b = BenchTest.mk (Some i) (Some ss) (Some es) (Some sr) (Some er) (Some d).

End Driver.

(** ** A platform to run the definitions on

    Raw values are integers and hydration multiplies by ten; the n-th clock
    reading is n squared; the codec knows the ASCII letters only; [object]
    supplies a handful of attributes. *)
Definition example_decode (b : list Byte.byte) : option string :=
  if forallb (fun x => Ascii.nat_of_ascii (Ascii.ascii_of_byte x) <? 128)%nat b
  then Some (String.string_of_list_ascii (map Ascii.ascii_of_byte b))
  else None.

Definition example : Platform := {|
  raw := Z;
  value := Z;
  hydrated := fun z => 10 * z;
  time := Z;
  perf_counter := fun n => Z.of_nat (n * n);
  time_sub := Z.sub;
  time_le := Z.le;
  utf8_decode := example_decode;
  interpreter_attr := fun s =>
    bool_decide (s ∈ ["__class__"; "__dict__"; "__hash__"; "__str__"])
|}.

(** A clock of binary64 numbers: its readings are 0, 1, 4, 9, 16 and from
    then on 25, so that it has finitely many readings and what is asked of a
    clock can be checked by computing. *)
Definition binary64_reading (n : nat) : float :=
  PrimFloat.of_uint63 (Uint63.of_Z (Z.of_nat (n * n))).

Definition binary64_clock (n : nat) : float :=
  binary64_reading (Nat.min n 5).

(** What is asked of a clock and of subtraction, decided on the readings
    number [0] to [5]. *)
Definition binary64_ordered : bool :=
  forallb (fun i =>
    forallb (fun j =>
      implb (i <=? j)%nat
        (PrimFloat.leb (binary64_reading i) (binary64_reading j)))
      (seq 0 6))
    (seq 0 6).

Definition binary64_differences : bool :=
  forallb (fun i =>
    forallb (fun j =>
      forallb (fun k =>
        forallb (fun l =>
          implb (PrimFloat.leb (binary64_reading i) (binary64_reading j))
            (implb (PrimFloat.leb (binary64_reading l) (binary64_reading k))
               (PrimFloat.leb
                  (PrimFloat.sub (binary64_reading i) (binary64_reading k))
                  (PrimFloat.sub (binary64_reading j) (binary64_reading l)))))
          (seq 0 6))
        (seq 0 6))
      (seq 0 6))
    (seq 0 6).

(** The same platform with the numbers of the interpreter for a clock:
    readings are binary64 numbers, subtracted and compared as IEEE-754
    says. *)
Definition binary64 : Platform := {|
  raw := Z;
  value := Z;
  hydrated := fun z => 10 * z;
  time := float;
  perf_counter := binary64_clock;
  time_sub := PrimFloat.sub;
  time_le := fun x y => PrimFloat.leb x y = true;
  utf8_decode := example_decode;
  interpreter_attr := fun s =>
    bool_decide (s ∈ ["__class__"; "__dict__"; "__hash__"; "__str__"])
|}.

(** The header of a result with the single field [x]. *)
Definition header_x : gmap string (list string) := {[ "fields" := ["x"] ]}.

(** A header with no fields, as BEGIN, COMMIT and ROLLBACK get. *)
Definition header_empty : gmap string (list string) := {[ "fields" := [] ]}.

(** A peer that accepts one statement and answers it with the single row
    [1]; after the session is built the clock has not been read. *)
Definition one_row : @world example :=
  new_world (accepting (P := example) [[1]] header_x ∅ []) 0.

(** The same peer, on the platform with the binary64 clock. *)
Definition one_row_binary64 : @world binary64 :=
  new_world (accepting (P := binary64) [[1]] header_x ∅ []) 0.

(** A peer that answers with a row of two values under a header of one
    field. *)
Definition wide_row : @world example :=
  new_world (accepting (P := example) [[1; 2]] header_x ∅ []) 0.

(** A peer that refuses the statement. *)
Definition refusing : @world example :=
  new_world [Connection.FAILURE (P := example) ∅] 0.



(** A statement given as bytes that are not UTF-8: the single byte 0xff. *)
Definition undecodable : statement := Bytes [Byte.xff].

(** A peer that accepts three statements without rows. *)
Definition three_statements : list (@Connection.message example) :=
  accepting [] header_empty ∅
    (accepting [] header_empty ∅ (accepting [] header_empty ∅ [])).

(** The session after [new_transaction()], and after a [commit()] of that
    transaction. *)
Definition in_transaction : @world example :=
  exec_all [session_new_transaction] (new_world three_statements 0).

Definition committed : @world example :=
  exec_all [session_new_transaction; transaction_commit 0%nat]
    (new_world three_statements 0).

(** Some records: one field, two fields, and two whose field names are
    also names of attributes every [Record] object has. *)
Definition record_x : @Record.t example :=
  Record.mk (P := example) ["x"] [1].

Definition record_xy : @Record.t example :=
  Record.mk (P := example) ["x"; "y"] [1; 2].

Definition record_values : @Record.t example :=
  Record.mk (P := example) ["__values__"] [7].

Definition record_len : @Record.t example :=
  Record.mk (P := example) ["a"; "__len__"] [1; 2].

(** A record with a repeated field name, and one with a field that has no
    value. *)
Definition record_dup : @Record.t example :=
  Record.mk (P := example) ["x"; "x"] [1; 2].

Definition record_short : @Record.t example :=
  Record.mk (P := example) ["x"; "y"] [1].

(** A peer that accepts two statements, the first with one row and the
    second with two. *)
Definition two_answers : @world example :=
  new_world
    (accepting (P := example) [[1]] header_x ∅
       (accepting (P := example) [[2]; [3]] header_x ∅ [])) 0.

(** A peer whose header names no fields. *)
Definition headerless : @world example :=
  new_world [Connection.SUCCESS (P := example) ∅] 0.

(** The session after [new_transaction()], with a peer that is going to
    refuse the next statement. *)
Definition commit_refused : @world example :=
  exec_all [session_new_transaction]
    (new_world
       (accepting (P := example) [] header_empty ∅ [Connection.FAILURE ∅]) 0).

(** * Properties *)

Section Properties.
Context {P : Platform}.

(** ** Sequences *)

Lemma seq_getitem_nat {A : Type} (l : list A) (i : nat) (x : A) :
  l !! i = Some x -> seq_getitem l (Z.of_nat i) = inr x.
Proof.
  intros Hi. unfold seq_getitem.
  assert (i < length l)%nat by (eapply lookup_lt_Some; eauto).
  destruct (Z.ltb_spec (Z.of_nat i) 0); [lia|].
  destruct (Z.ltb_spec (Z.of_nat i) 0); [lia|].
  destruct (Z.leb_spec (Z.of_nat (length l)) (Z.of_nat i)); [lia|].
  cbn. now rewrite Nat2Z.id, Hi.
Qed.

Lemma seq_getitem_from_end {A : Type} (l : list A) (k : nat) :
  (1 <= k <= length l)%nat ->
  seq_getitem l (- Z.of_nat k) = seq_getitem l (Z.of_nat (length l - k)).
Proof.
  intros Hk. unfold seq_getitem.
  destruct (Z.ltb_spec (- Z.of_nat k) 0); [|lia].
  destruct (Z.ltb_spec (Z.of_nat (length l - k)) 0); [lia|].
  replace (- Z.of_nat k + Z.of_nat (length l))
    with (Z.of_nat (length l - k)) by lia.
  reflexivity.
Qed.

Lemma list_index_unique (l : list string) (i : nat) (x : string) :
  NoDup l -> l !! i = Some x -> list_index l x = Some i.
Proof.
  intros Hnd. revert i. induction Hnd as [|y l Hy Hnd IH]; intros i Hi.
  - discriminate.
  - destruct i as [|i]; cbn in *.
    + injection Hi as ->. now rewrite decide_True.
    + rewrite decide_False.
      * now rewrite (IH i Hi).
      * intros ->. apply Hy. eapply list_elem_of_lookup_2; eauto.
Qed.

Lemma list_index_absent (l : list string) (x : string) :
  x ∉ l -> list_index l x = None.
Proof.
  induction l as [|y l IH]; intros Hx; cbn; [reflexivity|].
  rewrite decide_False.
  - rewrite IH; [reflexivity|]. intros Hin. apply Hx. now right.
  - intros ->. apply Hx. now left.
Qed.

(** ** Records *)

Lemma ordinary_lookup_unshadowed (r : Record.t) (name : string) :
  Record.shadowed name = false -> Record.ordinary_lookup r name = None.
Proof.
  unfold Record.shadowed, Record.ordinary_lookup. intros Hs.
  repeat (apply orb_false_elim in Hs as [Hs ?]).
  repeat match goal with
         | H : bool_decide _ = false |- _ => apply bool_decide_eq_false in H
         end.
  repeat (rewrite decide_False by assumption).
  now replace (interpreter_attr name) with false.
Qed.

Lemma getattr_field (r : Record.t) (i : nat) (name : string) (v : value) :
  NoDup (Record.__fields__ r) ->
  Record.__fields__ r !! i = Some name ->
  Record.__values__ r !! i = Some v ->
  Record.shadowed name = false ->
  Record.getattr r name = inr (Record.Field v).
Proof.
  intros Hnd Hf Hv Hs. unfold Record.getattr, Record.__getattr__.
  rewrite (ordinary_lookup_unshadowed r name Hs).
  rewrite (list_index_unique _ _ _ Hnd Hf).
  now rewrite (seq_getitem_nat _ _ _ Hv).
Qed.

Lemma getitem_position (r : Record.t) (i : nat) (name : string) (v : value) :
  NoDup (Record.__fields__ r) ->
  Record.__fields__ r !! i = Some name ->
  Record.__values__ r !! i = Some v ->
  Record.shadowed name = false ->
  Record.__getitem__ r (Record.Int (Z.of_nat i)) = inr (Record.Field v).
Proof.
  intros Hnd Hf Hv Hs. cbn. rewrite (seq_getitem_nat _ _ _ Hf).
  now apply (getattr_field r i name v).
Qed.

(** C7 (as amended).  Looking a record up by a name that is none of its
    field names and that ordinary attribute lookup does not resolve either
    fails with AttributeError, the field-not-found error, both as
    [record[name]] and as [record.name]; looking it up with an index that is
    neither an integer nor a string, such as the float 2.5, fails with
    TypeError, the index-type error. *)
Theorem Record_unknown_name_or_index_kind (r : Record.t) (name : string) :
  name ∉ Record.__fields__ r ->
  Record.shadowed name = false ->
  Record.__getitem__ r (Record.Str name) = inl AttributeError /\
  Record.getattr r name = inl AttributeError /\
  (forall m e : Z, Record.__getitem__ r (Record.Float m e) = inl TypeError) /\
  Record.__getitem__ r Record.NoneItem = inl TypeError.
Proof.
  intros Hname Hs.
  assert (Record.getattr r name = inl AttributeError) as Hget.
  { unfold Record.getattr, Record.__getattr__.
    rewrite (ordinary_lookup_unshadowed r name Hs).
    now rewrite (list_index_absent _ _ Hname). }
  repeat split; try assumption; reflexivity.
Qed.

(** C8 (as amended).  In a record with unique field names, let [name] be
    the field name at position [i], [v] the value at position [i], and let
    [name] not be resolved by ordinary attribute lookup.  Then [record[i]],
    [record[name]] and [record.name] all evaluate to [v]. *)
Theorem Record_lookups_agree (r : Record.t) (i : nat) (name : string)
  (v : value) :
  NoDup (Record.__fields__ r) ->
  Record.__fields__ r !! i = Some name ->
  Record.__values__ r !! i = Some v ->
  Record.shadowed name = false ->
  Record.__getitem__ r (Record.Int (Z.of_nat i)) = inr (Record.Field v) /\
  Record.__getitem__ r (Record.Str name) = inr (Record.Field v) /\
  Record.getattr r name = inr (Record.Field v).
Proof.
  intros Hnd Hf Hv Hs.
  pose proof (getattr_field r i name v Hnd Hf Hv Hs) as Hget.
  repeat split; try assumption.
  now apply (getitem_position r i name v).
Qed.

(** C10 (as amended).  In a record with [n] unique field names, none of
    them resolved by ordinary attribute lookup, and as many values as
    fields, [record[-k]] with [1 <= k <= n] does not fail: it evaluates to
    the value at position [n - k], as [record[n - k]] does. *)
Theorem Record_negative_index (r : Record.t) (k : nat) :
  NoDup (Record.__fields__ r) ->
  Forall (fun name => Record.shadowed name = false) (Record.__fields__ r) ->
  length (Record.__values__ r) = length (Record.__fields__ r) ->
  (1 <= k <= Record.__len__ r)%nat ->
  exists v : value,
    Record.__values__ r !! (Record.__len__ r - k)%nat = Some v /\
    Record.__getitem__ r (Record.Int (- Z.of_nat k)) = inr (Record.Field v) /\
    Record.__getitem__ r (Record.Int (Z.of_nat (Record.__len__ r - k)))
      = inr (Record.Field v).
Proof.
  unfold Record.__len__. intros Hnd Hall Hlen Hk.
  set (j := (length (Record.__fields__ r) - k)%nat).
  destruct (lookup_lt_is_Some_2 (Record.__fields__ r) j) as [name Hf];
    [subst j; lia|].
  destruct (lookup_lt_is_Some_2 (Record.__values__ r) j) as [v Hv];
    [subst j; lia|].
  assert (Record.shadowed name = false) as Hs.
  { rewrite Forall_forall in Hall. apply Hall.
    eapply list_elem_of_lookup_2; eauto. }
  pose proof (getitem_position r j name v Hnd Hf Hv Hs) as Hi.
  exists v. split; [assumption|]. split; [|assumption].
  cbn. rewrite (seq_getitem_from_end _ k Hk). fold j.
  cbn in Hi. exact Hi.
Qed.

(** ** What [Session.run] leaves alone *)

Lemma Session_run_frame (stmt : statement)
  (parameters : option (gmap string raw)) (w : world) :
  heap (after (Session_run stmt parameters w)) = heap w /\
  transaction (session (after (Session_run stmt parameters w)))
    = transaction (session w).
Proof.
  unfold Session_run. destruct (as_text stmt); [|now split].
  cbn zeta. destruct (Connection.consume _ _ _ _); [|now split..].
  destruct (Connection.consume _ _ _ _); now split.
Qed.

Lemma forget_after {A : Type} (o : outcome A) : after (forget o) = after o.
Proof. now destruct o. Qed.

(** ** The transaction slot *)

Lemma slot_inv_ext (w w' : world) :
  heap w' = heap w ->
  transaction (session w') = transaction (session w) ->
  slot_inv w -> slot_inv w'.
Proof.
  unfold slot_inv, is_open. intros Hh Ht Hinv tx. rewrite Hh, Ht. apply Hinv.
Qed.

Lemma slot_inv_run (stmt : statement)
  (parameters : option (gmap string raw)) (w : world) :
  slot_inv w -> slot_inv (after (Session_run stmt parameters w)).
Proof.
  destruct (Session_run_frame stmt parameters w) as [Hh Ht].
  now apply slot_inv_ext.
Qed.

Lemma is_open_store (tx tx' : nat) (self : Transaction) (b : bool)
  (w : world) :
  heap w !! tx = Some self ->
  is_open tx' (store tx (mkTransaction b (closed self)) w) <-> is_open tx' w.
Proof.
  intros Hself. unfold is_open, store. cbn.
  assert (tx < length (heap w))%nat by (eapply lookup_lt_Some; eauto).
  destruct (decide (tx = tx')) as [<-|Hne].
  - rewrite list_lookup_insert_eq by assumption. split.
    + intros (o & Ho & Hc). injection Ho as <-. eauto.
    + intros (o & Ho & Hc). rewrite Hself in Ho. injection Ho as <-. eauto.
  - now rewrite list_lookup_insert_ne by assumption.
Qed.

Lemma slot_inv_store (tx : nat) (self : Transaction) (b : bool) (w : world) :
  heap w !! tx = Some self ->
  slot_inv w -> slot_inv (store tx (mkTransaction b (closed self)) w).
Proof.
  intros Hself Hinv tx'. rewrite (is_open_store tx tx' self b w Hself).
  apply Hinv.
Qed.

Lemma slot_inv_new_transaction (w : world) :
  slot_inv w -> slot_inv (after (Session_new_transaction w)).
Proof.
  intros Hinv. unfold Session_new_transaction.
  destruct (transaction (session w)) eqn:Hslot; [exact Hinv|].
  unfold Transaction_new.
  pose proof (Session_run_frame (Text "BEGIN") None w) as [Hh Ht].
  pose proof (slot_inv_run (Text "BEGIN") None w Hinv) as Hrun.
  destruct (Session_run (Text "BEGIN") None w) as [recs w'|x w'|w'];
    cbn in *; try exact Hrun.
  intros tx. unfold is_open. cbn. split.
  - intros Heq. injection Heq as <-. exists (mkTransaction false false).
    now rewrite lookup_app_r, Nat.sub_diag by lia.
  - intros (o & Ho & Hc).
    destruct (lt_eq_lt_dec tx (length (heap w'))) as [[Hlt | ->] | Hgt].
    + rewrite lookup_app_l in Ho by assumption.
      assert (transaction (session w) = Some tx) as Habs.
      { apply Hinv. exists o. now rewrite <- Hh. }
      congruence.
    + reflexivity.
    + rewrite lookup_ge_None_2 in Ho; [discriminate|].
      rewrite length_app. cbn. lia.
Qed.

Lemma slot_inv_close (tx : nat) (w : world) :
  slot_inv w -> slot_inv (after (Transaction_close tx w)).
Proof.
  intros Hinv. unfold Transaction_close.
  destruct (heap w !! tx) as [self|] eqn:Hself; [|exact Hinv].
  destruct (closed self) eqn:Hclosed; [exact Hinv|].
  set (stmt := Text (if success self then "COMMIT" else "ROLLBACK")).
  pose proof (Session_run_frame stmt None w) as [Hh Ht].
  pose proof (slot_inv_run stmt None w Hinv) as Hrun.
  destruct (Session_run stmt None w) as [recs w'|x w'|w'];
    cbn in *; try exact Hrun.
  assert (tx < length (heap w))%nat by (eapply lookup_lt_Some; eauto).
  intros tx'. unfold is_open. cbn. rewrite Hh. split; [discriminate|].
  intros (o & Ho & Hc). exfalso.
  destruct (decide (tx = tx')) as [<-|Hne].
  - rewrite list_lookup_insert_eq in Ho by assumption.
    injection Ho as <-. discriminate.
  - rewrite list_lookup_insert_ne in Ho by assumption.
    assert (transaction (session w) = Some tx') by (apply Hinv; red; eauto).
    assert (transaction (session w) = Some tx) by (apply Hinv; red; eauto).
    congruence.
Qed.

Lemma slot_inv_exec (c : call) (w : world) :
  slot_inv w -> slot_inv (after (exec c w)).
Proof.
  intros Hinv. destruct c as [stmt ps| |tx stmt ps|tx|tx|tx|tx b]; cbn.
  - rewrite forget_after. now apply slot_inv_run.
  - rewrite forget_after. now apply slot_inv_new_transaction.
  - rewrite forget_after. unfold Transaction_run.
    destruct (heap w !! tx) as [self|]; [|exact Hinv].
    destruct (closed self); [exact Hinv|]. now apply slot_inv_run.
  - unfold Transaction_commit.
    destruct (heap w !! tx) as [self|] eqn:Hself; [|exact Hinv].
    apply slot_inv_close. now apply slot_inv_store.
  - unfold Transaction_rollback.
    destruct (heap w !! tx) as [self|] eqn:Hself; [|exact Hinv].
    apply slot_inv_close. now apply slot_inv_store.
  - now apply slot_inv_close.
  - unfold Transaction_set_success.
    destruct (heap w !! tx) as [self|] eqn:Hself; [|exact Hinv].
    cbn. now apply slot_inv_store.
Qed.

Lemma exec_all_after (c : call) (cs : list call) (w : world) :
  exec_all (c :: cs) w =
  match exec c w with
  | Hang w' => w'
  | _ => exec_all cs (after (exec c w))
  end.
Proof. cbn. now destruct (exec c w). Qed.

Lemma slot_inv_exec_all (cs : list call) (w : world) :
  slot_inv w -> slot_inv (exec_all cs w).
Proof.
  revert w. induction cs as [|c cs IH]; intros w Hinv; [exact Hinv|].
  pose proof (slot_inv_exec c w Hinv) as Hstep.
  cbn. destruct (exec c w); cbn in Hstep; auto.
Qed.

Lemma slot_inv_reachable (w : world) : reachable w -> slot_inv w.
Proof.
  intros (msgs & n & cs & ->). apply slot_inv_exec_all.
  intros tx. unfold is_open. cbn. split; [discriminate|].
  now intros (o & Ho & _).
Qed.

(** ** Driving the connection *)

Lemma drive_complete (k : nat) (self : Connection.Response Closure.name)
  (msgs : list Connection.message) (c : Connection.t Closure.name)
  (s : Closure.state) :
  self ∉ Connection.responses c ->
  Connection.drive (Closure.invoke k) self msgs c s =
  Connection.Done
    (Connection.mk msgs (Connection.responses c) (Connection.outgoing c)
       (Connection.sent c) (Connection.log c)) s.
Proof.
  intros Hself. destruct msgs; cbn; now rewrite bool_decide_eq_false_2.
Qed.

Lemma drive_nil (k : nat) (self : Connection.Response Closure.name)
  (c : Connection.t Closure.name) (s : Closure.state) :
  self ∈ Connection.responses c ->
  Connection.drive (Closure.invoke k) self [] c s =
  Connection.Blocked
    (Connection.mk [] (Connection.responses c) (Connection.outgoing c)
       (Connection.sent c) (Connection.log c)) s.
Proof. intros Hself. cbn. now rewrite bool_decide_eq_true_2. Qed.

Lemma drive_cons (k : nat) (self r : Connection.Response Closure.name)
  (rest : list (Connection.Response Closure.name)) (m : Connection.message)
  (msgs : list Connection.message) (c : Connection.t Closure.name)
  (s : Closure.state) :
  Connection.responses c = r :: rest ->
  self ∈ r :: rest ->
  Connection.drive (Closure.invoke k) self (m :: msgs) c s =
  match Connection.dispatch (Closure.invoke k) r m s with
  | inl x =>
      Connection.Raising x
        (Connection.mk msgs
           (if Connection.summary m then rest else r :: rest)
           (Connection.outgoing c) (Connection.sent c)
           (Connection.log c ++ [Connection.Deliver r m])) s
  | inr s' =>
      Connection.drive (Closure.invoke k) self msgs
        (Connection.mk msgs
           (if Connection.summary m then rest else r :: rest)
           (Connection.outgoing c) (Connection.sent c)
           (Connection.log c ++ [Connection.Deliver r m])) s'
  end.
Proof.
  intros Hc Hself. cbn [Connection.drive]. rewrite Hc.
  now rewrite bool_decide_eq_true_2.
Qed.

Lemma delivered_weaken (k : nat)
  (l l' : list (Connection.Response Closure.name))
  (ev : Connection.event Closure.name) :
  l ⊆ l' -> delivered k l ev -> delivered k l' ev.
Proof.
  intros Hsub (r & m & -> & Hr & Hok). exists r, m. auto.
Qed.

Lemma traced_step (k : nat) (within : list (Connection.Response Closure.name))
  (self r : Connection.Response Closure.name)
  (post : list (Connection.Response Closure.name)) (m : Connection.message)
  (c c' : Connection.t Closure.name)
  (o : Connection.driven (H := Closure.name) (E := Closure.state)) :
  Connection.log c' = Connection.log c ++ [Connection.Deliver r m] ->
  Connection.outgoing c' = Connection.outgoing c ->
  Connection.sent c' = Connection.sent c ->
  delivered k within (Connection.Deliver r m) ->
  traced k within self post c' o -> traced k within self post c o.
Proof.
  intros Hlog Hout Hsent Hev. destruct o as [c1 s1|x c1 s1|c1 s1]; cbn.
  - intros (ds & m' & H1 & H2 & H3 & H4 & H5 & H6).
    exists (Connection.Deliver r m :: ds), m'.
    rewrite H1, Hlog, <- !app_assoc. cbn.
    repeat split; auto; try congruence.
  - intros (ds & r' & m' & H1 & H2 & H3 & H4 & H5 & H6).
    exists (Connection.Deliver r m :: ds), r', m'.
    rewrite H1, Hlog, <- !app_assoc. cbn.
    repeat split; auto; try congruence.
  - intros (ds & H1 & H2 & H3 & H4).
    exists (Connection.Deliver r m :: ds).
    rewrite H1, Hlog, <- !app_assoc. cbn.
    repeat split; auto; try congruence.
Qed.

Lemma traced_weaken (k : nat)
  (within within' : list (Connection.Response Closure.name))
  (self : Connection.Response Closure.name)
  (post : list (Connection.Response Closure.name))
  (c : Connection.t Closure.name)
  (o : Connection.driven (H := Closure.name) (E := Closure.state)) :
  within ⊆ within' ->
  traced k within self post c o -> traced k within' self post c o.
Proof.
  intros Hsub.
  assert (forall ds, Forall (delivered k within) ds ->
                     Forall (delivered k within') ds) as Hall.
  { intros ds Hds. eapply Forall_impl; [exact Hds|].
    intros ev. now apply delivered_weaken. }
  destruct o as [c1 s1|x c1 s1|c1 s1]; cbn.
  - intros (ds & m & H1 & H2 & H3 & H4). exists ds, m. auto.
  - intros (ds & r & m & H1 & H2 & H3 & H4). exists ds, r, m.
    repeat split; try tauto; auto.
  - intros (ds & H1 & H2 & H3). exists ds. auto.
Qed.

Lemma drive_traced (k : nat) (self : Connection.Response Closure.name)
  (msgs : list Connection.message) :
  forall (pre post : list (Connection.Response Closure.name))
    (c : Connection.t Closure.name) (s : Closure.state),
    Connection.responses c = pre ++ self :: post ->
    self ∉ post ->
    traced k (pre ++ [self]) self post c
      (Connection.drive (Closure.invoke k) self msgs c s).
Proof.
  induction msgs as [|m msgs IH]; intros pre post c s Hc Hpost.
  - rewrite drive_nil by (rewrite Hc; set_solver).
    cbn. exists []. rewrite app_nil_r. auto.
  - destruct pre as [|r pre]; cbn [app] in Hc.
    + rewrite (drive_cons k self self post) by (auto; set_solver).
      destruct (Connection.dispatch (Closure.invoke k) self m s)
        as [x|s1] eqn:Hd.
      * cbn. exists [], self, m. cbn. repeat split; auto. set_solver.
      * assert (delivered k ([] ++ [self]) (Connection.Deliver self m)) as Hev.
        { exists self, m. repeat split; [set_solver|eauto]. }
        destruct (Connection.summary m) eqn:Hsum.
        -- rewrite drive_complete by exact Hpost.
           cbn. exists [], m. cbn. repeat split; auto.
        -- match goal with
           | |- traced _ _ _ _ _ (Connection.drive _ _ _ ?c' _) =>
               apply (traced_step k _ self self post m c c');
                 [reflexivity..|exact Hev|]
           end.
           apply (IH [] post); auto.
    + rewrite (drive_cons k self r (pre ++ self :: post))
        by (auto; set_solver).
      destruct (Connection.dispatch (Closure.invoke k) r m s)
        as [x|s1] eqn:Hd.
      * cbn. exists [], r, m. cbn. repeat split; auto. set_solver.
      * assert (delivered k ((r :: pre) ++ [self])
                  (Connection.Deliver r m)) as Hev.
        { exists r, m. repeat split; [set_solver|eauto]. }
        match goal with
        | |- traced _ _ _ _ _ (Connection.drive _ _ _ ?c' _) =>
            apply (traced_step k _ self r post m c c');
              [reflexivity..|exact Hev|]
        end.
        destruct (Connection.summary m) eqn:Hsum.
        -- apply (traced_weaken k (pre ++ [self]));
             [intros x Hx; cbn; now right|].
           apply (IH pre post); auto.
        -- apply (IH (r :: pre) post); auto.
Qed.

(** ** The closures at work *)

Lemma call_ticks (h : Closure.name) (m : Connection.message)
  (s s' : Closure.state) :
  Closure.call h m s = inr s' -> (s.2 <= s'.2)%nat.
Proof.
  destruct h, m; cbn;
    unfold Closure.on_header, Closure.on_record, Closure.on_footer,
      Closure.on_failure;
    try destruct (_ !! _); intros Heq; try discriminate;
    injection Heq as <-; cbn; lia.
Qed.

Lemma dispatch_stale (k : nat) (r : Connection.Response Closure.name)
  (m : Connection.message) (s s' : Closure.state) :
  Connection.made_by r <> k ->
  Connection.dispatch (Closure.invoke k) r m s = inr s' ->
  s'.1 = s.1 /\ (s.2 <= s'.2)%nat.
Proof.
  intros Hr. unfold Connection.dispatch.
  destruct (Connection.slot r m) as [h|].
  - unfold Closure.invoke. rewrite decide_False by assumption.
    destruct (Closure.call h m (Closure.abandoned, s.2)) as [x|s1] eqn:Hcall;
      intros Heq; [discriminate|].
    injection Heq as <-. apply call_ticks in Hcall. cbn in *. auto.
  - intros Heq. injection Heq as <-. auto.
Qed.

Lemma run_response_not_pull_all (k : nat) :
  run_response k <> pull_all_response k.
Proof. discriminate. Qed.

Lemma dispatch_run_response (k : nat) (m : Connection.message)
  (s : Closure.state) :
  Connection.dispatch (Closure.invoke k) (run_response k) m s =
  match m with
  | Connection.SUCCESS metadata => Closure.on_header metadata s
  | Connection.RECORD _ => inr s
  | Connection.FAILURE _ => inl CypherError
  end.
Proof.
  destruct m; unfold Connection.dispatch, Closure.invoke; cbn;
    try rewrite decide_True by reflexivity; reflexivity.
Qed.

Lemma dispatch_pull_all_response (k : nat) (m : Connection.message)
  (s : Closure.state) :
  Connection.dispatch (Closure.invoke k) (pull_all_response k) m s =
  match m with
  | Connection.SUCCESS metadata => Closure.on_footer metadata s
  | Connection.RECORD values => Closure.on_record values s
  | Connection.FAILURE _ => inl CypherError
  end.
Proof.
  destruct m; unfold Connection.dispatch, Closure.invoke; cbn;
    try rewrite decide_True by reflexivity; reflexivity.
Qed.

(** Consuming the run-response: if it ends well, the header was read. *)
Lemma drive_run_response (k : nat) (msgs : list Connection.message) :
  forall (stale post : list (Connection.Response Closure.name))
    (c c' : Connection.t Closure.name) (s s' : Closure.state),
    Connection.responses c = stale ++ run_response k :: post ->
    Forall (fun r => Connection.made_by r <> k) stale ->
    run_response k ∉ post ->
    Connection.drive (Closure.invoke k) (run_response k) msgs c s
      = Connection.Done c' s' ->
    exists skipped metadata names m,
      msgs = skipped ++ Connection.SUCCESS metadata :: Connection.incoming c'
      /\ metadata !! "fields" = Some names
      /\ (s.2 <= m)%nat
      /\ s' = (Closure.mkCells (Closure.fields s.1 ++ names)
                 (Closure.records s.1)
                 (BenchTest.set_start_recv (perf_counter m) (Closure.t s.1)),
               S m).
Proof.
  induction msgs as [|m msgs IH]; intros stale post c c' s s' Hc Hstale Hpost.
  - rewrite drive_nil by (rewrite Hc; set_solver). discriminate.
  - destruct stale as [|r stale]; cbn [app] in Hc.
    + rewrite (drive_cons k _ (run_response k) post) by (auto; set_solver).
      rewrite dispatch_run_response.
      destruct m as [metadata|values|metadata]; cbn [Connection.summary].
      * unfold Closure.on_header.
        destruct (metadata !! "fields") as [names|] eqn:Hnames;
          [|discriminate].
        rewrite drive_complete by exact Hpost.
        intros Heq. injection Heq as <- <-.
        exists [], metadata, names, s.2. cbn. auto.
      * intros Hd.
        eapply (IH [] post) in Hd; [|reflexivity|exact Hstale|exact Hpost].
        destruct Hd as (skipped & metadata & names & n & -> & H2 & H3 & H4).
        exists (Connection.RECORD values :: skipped), metadata, names, n.
        auto.
      * discriminate.
    + rewrite (drive_cons k _ r (stale ++ run_response k :: post))
        by (auto; set_solver).
      apply Forall_cons in Hstale as [Hr Hstale].
      destruct (Connection.dispatch (Closure.invoke k) r m s)
        as [x|s1] eqn:Hd; [discriminate|].
      apply dispatch_stale in Hd as [Hcells Hticks]; [|exact Hr].
      intros Hdrive.
      assert (exists stale',
                 (if Connection.summary m
                  then stale ++ run_response k :: post
                  else r :: stale ++ run_response k :: post)
                 = stale' ++ run_response k :: post /\
                 Forall (fun r => Connection.made_by r <> k) stale')
        as (stale' & Hq & Hstale').
      { destruct (Connection.summary m);
          [exists stale|exists (r :: stale)]; auto. }
      eapply (IH stale' post) in Hdrive; [|exact Hq|exact Hstale'|exact Hpost].
      destruct Hdrive as (skipped & metadata & names & n & -> & H2 & H3 & H4).
      exists (m :: skipped), metadata, names, n.
      rewrite Hcells in H4. repeat split; auto. lia.
Qed.

(** Consuming the pull-response when nothing else waits: if it ends well,
    rows and a footer were read. *)
Lemma drive_pull_all_response (k : nat) (msgs : list Connection.message) :
  forall (c c' : Connection.t Closure.name) (s s' : Closure.state),
    Connection.responses c = [pull_all_response k] ->
    Connection.drive (Closure.invoke k) (pull_all_response k) msgs c s
      = Connection.Done c' s' ->
    exists rows footer,
      msgs = map Connection.RECORD rows
               ++ Connection.SUCCESS footer :: Connection.incoming c'
      /\ s' = (Closure.mkCells (Closure.fields s.1)
                 (Closure.records s.1 ++ map (map hydrated) rows)
                 (BenchTest.set_end_recv (perf_counter s.2) (Closure.t s.1)),
               S s.2).
Proof.
  induction msgs as [|m msgs IH]; intros c c' s s' Hc.
  - rewrite drive_nil by (rewrite Hc; set_solver). discriminate.
  - rewrite (drive_cons k _ (pull_all_response k) []) by (auto; set_solver).
    rewrite dispatch_pull_all_response.
    destruct m as [metadata|values|metadata]; cbn [Connection.summary].
    + unfold Closure.on_footer.
      rewrite drive_complete by (cbn; set_solver).
      intros Heq. injection Heq as <- <-.
      exists [], metadata. cbn. now rewrite app_nil_r.
    + unfold Closure.on_record. intros Hd.
      eapply IH in Hd; [|reflexivity].
      destruct Hd as (rows & footer & -> & ->).
      exists (values :: rows), footer. cbn. now rewrite <- app_assoc.
    + discriminate.
Qed.

(** The same loop read forwards: rows and a footer are consumed to the
    end. *)
Lemma drive_pull_all_rows (k : nat) (rows : list (list raw))
  (footer : gmap string (list string)) (rest : list Connection.message) :
  forall (c : Connection.t Closure.name) (s : Closure.state),
    Connection.responses c = [pull_all_response k] ->
    Connection.drive (Closure.invoke k) (pull_all_response k)
      (map Connection.RECORD rows ++ Connection.SUCCESS footer :: rest) c s
    = Connection.Done
        (Connection.mk rest [] (Connection.outgoing c) (Connection.sent c)
           (Connection.log c
              ++ map (fun row => Connection.Deliver (pull_all_response k)
                                   (Connection.RECORD row)) rows
              ++ [Connection.Deliver (pull_all_response k)
                    (Connection.SUCCESS footer)]))
        (Closure.mkCells (Closure.fields s.1)
           (Closure.records s.1 ++ map (map hydrated) rows)
           (BenchTest.set_end_recv (perf_counter s.2) (Closure.t s.1)),
         S s.2).
Proof.
  induction rows as [|row rows IH]; intros c s Hc; cbn [map app].
  - rewrite (drive_cons k _ (pull_all_response k) []) by (auto; set_solver).
    rewrite dispatch_pull_all_response. cbn [Connection.summary].
    unfold Closure.on_footer.
    rewrite drive_complete by (cbn; set_solver).
    cbn. now rewrite app_nil_r.
  - rewrite (drive_cons k _ (pull_all_response k) []) by (auto; set_solver).
    rewrite dispatch_pull_all_response. cbn [Connection.summary].
    unfold Closure.on_record. rewrite IH by reflexivity.
    cbn. now rewrite <- !app_assoc.
Qed.

(** ** [Session.run], step by step *)

Lemma Session_run_unfold (stmt : statement) (text : string)
  (parameters : option (gmap string raw)) (w : world) :
  as_text stmt = Some text ->
  Session_run stmt parameters w =
  match Connection.consume (Closure.invoke (calls w)) (run_response (calls w))
          (prepared text (default ∅ parameters) w) (started w) with
  | Connection.Blocked c s => Hang (unwound w c s)
  | Connection.Raising x c s => Raise x (unwound w c s)
  | Connection.Done c s =>
      match Connection.consume (Closure.invoke (calls w))
              (pull_all_response (calls w)) c s with
      | Connection.Blocked c s => Hang (unwound w c s)
      | Connection.Raising x c s => Raise x (unwound w c s)
      | Connection.Done c s =>
          Return
            (map (Record.mk (Closure.fields s.1)) (Closure.records s.1))
            (mkWorld
               (mkSession c (transaction (session w))
                  (bench_tests (session w)
                     ++ [BenchTest.set_done (perf_counter s.2)
                           (Closure.t s.1)]))
               (heap w) (S s.2) (S (calls w)))
      end
  end.
Proof. unfold Session_run. now intros ->. Qed.

Lemma fresh_stale (w : world) :
  fresh w ->
  Forall (fun r => Connection.made_by r <> calls w)
    (Connection.responses (connection (session w))).
Proof.
  unfold fresh. intros Hf. eapply Forall_impl; [exact Hf|].
  intros r Hr. cbn in Hr. lia.
Qed.

Lemma fresh_not_waiting (w : world) (r : Connection.Response Closure.name) :
  fresh w ->
  Connection.made_by r = calls w ->
  r ∉ Connection.responses (connection (session w)).
Proof.
  intros Hf Hr Hin. apply fresh_stale in Hf.
  rewrite Forall_forall in Hf. now apply (Hf r).
Qed.

Lemma prepared_responses (text : string) (parameters : gmap string raw)
  (w : world) :
  Connection.responses (prepared text parameters w) =
  Connection.responses (connection (session w))
    ++ run_response (calls w) :: [pull_all_response (calls w)].
Proof. cbn. now rewrite <- app_assoc. Qed.

Lemma prepared_log (text : string) (parameters : gmap string raw)
  (w : world) :
  Connection.log (prepared text parameters w) =
  Connection.log (connection (session w))
    ++ [Connection.Append (Connection.RUN text parameters)
          (run_response (calls w));
        Connection.Append Connection.PULL_ALL (pull_all_response (calls w));
        Connection.Send].
Proof. cbn. now rewrite <- !app_assoc. Qed.

Lemma prepared_sent (text : string) (parameters : gmap string raw)
  (w : world) :
  Connection.sent (prepared text parameters w) =
  Connection.sent (connection (session w))
    ++ Connection.outgoing (connection (session w))
    ++ [Connection.RUN text parameters; Connection.PULL_ALL] /\
  Connection.outgoing (prepared text parameters w) = [].
Proof. cbn. now rewrite <- !app_assoc. Qed.

Lemma consume_traced (k : nat) (self : Connection.Response Closure.name)
  (pre post : list (Connection.Response Closure.name))
  (c : Connection.t Closure.name) (s : Closure.state) :
  Connection.responses c = pre ++ self :: post ->
  self ∉ post ->
  traced k (pre ++ [self]) self post
    (Connection.mk (Connection.incoming c) (Connection.responses c)
       (Connection.outgoing c) (Connection.sent c)
       (Connection.log c ++ [Connection.Consume self]))
    (Connection.consume (Closure.invoke k) self c s).
Proof. intros Hc Hpost. unfold Connection.consume. now apply drive_traced. Qed.

Lemma pull_all_not_behind (k : nat) :
  run_response k ∉ [pull_all_response k].
Proof.
  intros Hin. apply list_elem_of_singleton in Hin. discriminate.
Qed.

(** What a call that returns has done. *)
Lemma Session_run_returns (stmt : statement)
  (parameters : option (gmap string raw)) (w w' : world)
  (recs : list Record.t) :
  fresh w ->
  Session_run stmt parameters w = Return recs w' ->
  exists skipped header names rows footer m,
    Connection.incoming (connection (session w)) =
      skipped ++ accepting rows header footer
                   (Connection.incoming (connection (session w')))
    /\ header !! "fields" = Some names
    /\ recs = map (Record.mk names) (map (map hydrated) rows)
    /\ Connection.responses (connection (session w')) = []
    /\ (ticks w + 3 <= m)%nat
    /\ bench_tests (session w') =
         bench_tests (session w)
           ++ [BenchTest.mk (Some (perf_counter (ticks w)))
                 (Some (perf_counter (ticks w + 1)%nat))
                 (Some (perf_counter (ticks w + 2)%nat))
                 (Some (perf_counter m))
                 (Some (perf_counter (S m)))
                 (Some (perf_counter (S (S m))))]
    /\ ticks w' = S (S (S m))
    /\ calls w' = S (calls w).
Proof.
  intros Hfresh.
  destruct (as_text stmt) as [text|] eqn:Htext;
    [|unfold Session_run; rewrite Htext; discriminate].
  rewrite (Session_run_unfold stmt text parameters w Htext).
  set (k := calls w). set (c0 := prepared text (default ∅ parameters) w).
  pose proof (consume_traced k (run_response k)
                (Connection.responses (connection (session w)))
                [pull_all_response k] c0 (started w)
                (prepared_responses _ _ w) (pull_all_not_behind k)) as Ht1.
  destruct (Connection.consume (Closure.invoke k) (run_response k) c0
              (started w)) as [c1 s1|x c1 s1|c1 s1] eqn:H1; try discriminate.
  cbn in Ht1. destruct Ht1 as (ds1 & m1 & _ & _ & _ & Hq1 & _).
  unfold Connection.consume in H1.
  eapply drive_run_response in H1;
    [|apply prepared_responses|now apply fresh_stale|apply pull_all_not_behind].
  destruct H1 as (skipped & header & names & m & Hin1 & Hnames & Hm & ->).
  pose proof (consume_traced k (pull_all_response k) [] [] c1
                (Closure.mkCells ([] ++ names) []
                   (BenchTest.set_start_recv (perf_counter m)
                      (Closure.t (started w).1)), S m)
                Hq1 (not_elem_of_nil _)) as Ht2.
  cbn [Closure.fields Closure.records fst snd started] in *.
  destruct (Connection.consume (Closure.invoke k) (pull_all_response k) c1 _)
    as [c2 s2|x c2 s2|c2 s2] eqn:H2; try discriminate.
  cbn in Ht2. destruct Ht2 as (ds2 & m2 & _ & _ & _ & Hq2 & _).
  unfold Connection.consume in H2.
  eapply drive_pull_all_response in H2; [|exact Hq1].
  destruct H2 as (rows & footer & Hin2 & ->).
  intros Heq. injection Heq as <- <-.
  exists skipped, header, names, rows, footer, m. cbn.
  cbn in Hin1, Hin2. rewrite Hin1, Hin2.
  repeat split; auto.
Qed.

(** What a call does when nothing waits on the connection and the peer
    accepts the statement. *)
Lemma Session_run_accepting (stmt : statement) (text : string)
  (parameters : option (gmap string raw)) (w : world)
  (rows : list (list raw)) (header footer : gmap string (list string))
  (rest : list Connection.message) (names : list string) :
  as_text stmt = Some text ->
  Connection.responses (connection (session w)) = [] ->
  Connection.incoming (connection (session w))
    = accepting rows header footer rest ->
  header !! "fields" = Some names ->
  exists w',
    Session_run stmt parameters w =
      Return (map (Record.mk names) (map (map hydrated) rows)) w'
    /\ Connection.incoming (connection (session w')) = rest.
Proof.
  intros Htext Hq Hin Hnames.
  rewrite (Session_run_unfold stmt text parameters w Htext).
  set (k := calls w).
  unfold Connection.consume at 1.
  rewrite prepared_responses, Hq. cbn [app].
  replace (Connection.incoming (prepared text (default ∅ parameters) w))
    with (accepting rows header footer rest) by (rewrite <- Hin; reflexivity).
  unfold accepting.
  rewrite (drive_cons k _ (run_response k) [pull_all_response k])
    by (auto; set_solver).
  rewrite dispatch_run_response. unfold Closure.on_header. rewrite Hnames.
  cbn [Connection.summary].
  rewrite drive_complete by apply pull_all_not_behind.
  unfold Connection.consume. cbn [Connection.incoming Connection.responses].
  rewrite drive_pull_all_rows by reflexivity.
  eexists. split; reflexivity.
Qed.

(** C1 (as amended).  On a connection that no earlier call has left
    responses on, a call of [run] against a peer that accepts the statement
    returns one [Record] per record message, in the order of arrival; and
    whenever a call returns, its records are, in order, those of the record
    messages its pull-response received.  Each record carries the field names
    of the header and, position by position, the hydrated raw values of its
    record message, so that its value count is that of the message; it
    equals the field count when the message has as many values as the header
    has names. *)
Theorem Session_run_records (stmt : statement) (text : string)
  (parameters : option (gmap string raw)) (w : world) :
  fresh w ->
  as_text stmt = Some text ->
  (forall rows header footer rest names,
      Connection.responses (connection (session w)) = [] ->
      Connection.incoming (connection (session w))
        = accepting rows header footer rest ->
      header !! "fields" = Some names ->
      exists w',
        Session_run stmt parameters w =
          Return (map (fun row => Record.mk names (map hydrated row)) rows) w'
        /\ Connection.incoming (connection (session w')) = rest) /\
  (forall recs w',
      Session_run stmt parameters w = Return recs w' ->
      exists skipped header names rows footer,
        Connection.incoming (connection (session w)) =
          skipped ++ accepting rows header footer
                       (Connection.incoming (connection (session w')))
        /\ header !! "fields" = Some names
        /\ length recs = length rows
        /\ forall i row,
             rows !! i = Some row ->
             exists rec,
               recs !! i = Some rec
               /\ Record.__fields__ rec = names
               /\ Record.__values__ rec = map hydrated row
               /\ (forall j x, row !! j = Some x ->
                     Record.__values__ rec !! j = Some (hydrated x))
               /\ length (Record.__values__ rec) = length row
               /\ (length row = length names ->
                   length (Record.__values__ rec) = Record.__len__ rec)).
Proof.
  intros Hfresh Htext. split.
  - intros rows header footer rest names Hq Hin Hnames.
    destruct (Session_run_accepting stmt text parameters w rows header footer
                rest names Htext Hq Hin Hnames) as (w' & Hrun & Hrest).
    exists w'. split; [|exact Hrest].
    rewrite Hrun. now rewrite map_map.
  - intros recs w' Hrun.
    destruct (Session_run_returns stmt parameters w w' recs Hfresh Hrun)
      as (skipped & header & names & rows & footer & m & Hin & Hnames & ->
          & _).
    exists skipped, header, names, rows, footer.
    repeat split; auto.
    + now rewrite !length_map.
    + intros i row Hrow.
      exists (Record.mk names (map hydrated row)).
      rewrite map_map, list_lookup_fmap, Hrow. cbn.
      repeat split; auto.
      * intros j x Hx. now rewrite list_lookup_fmap, Hx.
      * now rewrite length_map.
      * unfold Record.__len__. cbn. now rewrite length_map.
Qed.

Lemma delivered_beside (k : nat)
  (l : list (Connection.Response Closure.name))
  (r0 : Connection.Response Closure.name)
  (ev : Connection.event Closure.name) :
  r0 ∉ l -> delivered k l ev -> delivery_beside r0 ev.
Proof.
  intros Hr0 (r & m & -> & Hr & _). exists r, m. split; [reflexivity|].
  now intros ->.
Qed.

Lemma delivered_to_only (k : nat) (r0 : Connection.Response Closure.name)
  (ev : Connection.event Closure.name) :
  delivered k [r0] ev -> delivery_to r0 ev.
Proof.
  intros (r & m & -> & Hr & _). apply list_elem_of_singleton in Hr as ->.
  now exists m.
Qed.

Lemma pull_all_not_ahead (w : world) :
  fresh w ->
  pull_all_response (calls w)
    ∉ Connection.responses (connection (session w)) ++ [run_response (calls w)].
Proof.
  intros Hfresh Hin. apply elem_of_app in Hin as [Hin|Hin].
  - now apply (fresh_not_waiting w (pull_all_response (calls w)) Hfresh).
  - apply list_elem_of_singleton in Hin. discriminate.
Qed.

(** While a response waits for its summary message, consuming it can only
    block: as long as the call is blocked, no summary message has been
    delivered to the response. *)
Lemma drive_blocked (k : nat) (self : Connection.Response Closure.name)
  (msgs : list Connection.message) :
  forall (pre post : list (Connection.Response Closure.name))
    (c : Connection.t Closure.name) (s : Closure.state),
    Connection.responses c = pre ++ self :: post ->
    self ∉ pre ->
    self ∉ post ->
    match Connection.drive (Closure.invoke k) self msgs c s with
    | Connection.Blocked c' s' =>
        exists ds,
          Connection.log c' = Connection.log c ++ ds
          /\ Forall (fun ev => forall m, ev = Connection.Deliver self m ->
                                 Connection.summary m = false) ds
    | _ => True
    end.
Proof.
  induction msgs as [|m msgs IH]; intros pre post c s Hc Hpre Hpost.
  - rewrite drive_nil by (rewrite Hc; set_solver).
    exists []. now rewrite app_nil_r.
  - destruct pre as [|r pre]; cbn [app] in Hc.
    + rewrite (drive_cons k self self post) by (auto; set_solver).
      destruct (Connection.dispatch (Closure.invoke k) self m s)
        as [x|s1] eqn:Hd; [exact I|].
      destruct (Connection.summary m) eqn:Hsum.
      * rewrite drive_complete by exact Hpost. exact I.
      * match goal with
        | |- context [Connection.drive _ _ _ ?c' ?s'] =>
            pose proof (IH [] post c' s' eq_refl Hpre Hpost) as IH';
            destruct (Connection.drive (Closure.invoke k) self msgs c' s')
              as [c2 s2|x c2 s2|c2 s2]; try exact I
        end.
        destruct IH' as (ds & Hlog & Hall). cbn in Hlog.
        exists (Connection.Deliver self m :: ds).
        rewrite Hlog, <- app_assoc. split; [reflexivity|].
        constructor; [|exact Hall].
        intros m' Heq. injection Heq as <-. exact Hsum.
    + rewrite (drive_cons k self r (pre ++ self :: post))
        by (auto; set_solver).
      destruct (Connection.dispatch (Closure.invoke k) r m s)
        as [x|s1] eqn:Hd; [exact I|].
      assert (r <> self) as Hr by set_solver.
      assert (self ∉ pre) as Hpre' by set_solver.
      assert (exists pre',
                 (if Connection.summary m
                  then pre ++ self :: post
                  else r :: pre ++ self :: post)
                 = pre' ++ self :: post /\ self ∉ pre')
        as (pre' & Hq & Hpre'').
      { destruct (Connection.summary m);
          [exists pre|exists (r :: pre)]; auto. }
      match goal with
      | |- context [Connection.drive _ _ _ ?c' ?s'] =>
          pose proof (IH pre' post c' s' Hq Hpre'' Hpost) as IH';
          destruct (Connection.drive (Closure.invoke k) self msgs c' s')
            as [c2 s2|x c2 s2|c2 s2]; try exact I
      end.
      destruct IH' as (ds & Hlog & Hall). cbn in Hlog.
      exists (Connection.Deliver r m :: ds).
      rewrite Hlog, <- app_assoc. split; [reflexivity|].
      constructor; [|exact Hall].
      intros m' Heq. injection Heq as -> _. contradiction.
Qed.

(** Consuming the pull-response when nothing else waits, in full: rows go
    to [on_record] until a footer ends the response, a FAILURE raises, or
    the peer falls silent. *)
Lemma drive_pull_all (k : nat) (msgs : list Connection.message) :
  forall (c : Connection.t Closure.name) (s : Closure.state),
    Connection.responses c = [pull_all_response k] ->
    match Connection.drive (Closure.invoke k) (pull_all_response k) msgs c s
    with
    | Connection.Done c' s' =>
        exists rows footer,
          Connection.log c' =
            Connection.log c
              ++ map (fun row => Connection.Deliver (pull_all_response k)
                                   (Connection.RECORD row)) rows
              ++ [Connection.Deliver (pull_all_response k)
                    (Connection.SUCCESS footer)]
    | Connection.Raising x c' s' =>
        x = CypherError /\
        exists rows metadata,
          Connection.log c' =
            Connection.log c
              ++ map (fun row => Connection.Deliver (pull_all_response k)
                                   (Connection.RECORD row)) rows
              ++ [Connection.Deliver (pull_all_response k)
                    (Connection.FAILURE metadata)]
    | Connection.Blocked c' s' =>
        exists rows,
          Connection.log c' =
            Connection.log c
              ++ map (fun row => Connection.Deliver (pull_all_response k)
                                   (Connection.RECORD row)) rows
    end.
Proof.
  induction msgs as [|m msgs IH]; intros c s Hc.
  - rewrite drive_nil by (rewrite Hc; set_solver).
    exists []. cbn. now rewrite app_nil_r.
  - rewrite (drive_cons k _ (pull_all_response k) []) by (auto; set_solver).
    rewrite dispatch_pull_all_response.
    destruct m as [metadata|values|metadata]; cbn [Connection.summary].
    + unfold Closure.on_footer.
      rewrite drive_complete by (cbn; set_solver).
      exists [], metadata. reflexivity.
    + unfold Closure.on_record.
      match goal with
      | |- context [Connection.drive _ _ _ ?c' ?s'] =>
          pose proof (IH c' s' eq_refl) as IH';
          destruct (Connection.drive (Closure.invoke k) (pull_all_response k)
                      msgs c' s') as [c2 s2|x c2 s2|c2 s2]
      end; cbn in IH'.
      * destruct IH' as (rows & footer & ->).
        exists (values :: rows), footer. now rewrite <- app_assoc.
      * destruct IH' as (-> & rows & md & ->). split; [reflexivity|].
        exists (values :: rows), md. now rewrite <- app_assoc.
      * destruct IH' as (rows & ->).
        exists (values :: rows). now rewrite <- app_assoc.
    + split; [reflexivity|]. exists [], metadata. reflexivity.
Qed.


(** A summary message that the run-response takes without raising is a
    header that names the fields. *)
Lemma delivered_header (k : nat)
  (l : list (Connection.Response Closure.name)) (m : Connection.message) :
  delivered k l (Connection.Deliver (run_response k) m) ->
  Connection.summary m = true ->
  exists header names,
    m = Connection.SUCCESS header /\ header !! "fields" = Some names.
Proof.
  intros (r & m' & Heq & _ & s & s' & Hd) Hsum. injection Heq as <- <-.
  rewrite dispatch_run_response in Hd.
  destruct m as [header|values|metadata]; try discriminate.
  unfold Closure.on_header in Hd.
  destruct (header !! "fields") as [names|] eqn:Hnames; [|discriminate].
  eauto.
Qed.

(** C5 (as amended).  Every call of [run] whose statement is text, or
    bytes that decode, deals with the connection in this order: it queues
    the RUN request bound to the run-response, queues the PULL_ALL request
    bound to the pull-response, flushes once (both requests leave in that
    flush), and starts consuming the run-response.  From then on it only
    receives, and while the run-response is consumed no message goes to the
    pull-response.  Then one of three things has happened.  The run-response
    became terminal with a header naming the fields: the call goes on to
    consume the pull-response, which takes rows until a footer (the call
    returns), a FAILURE (the call raises CypherError) or the silence of the
    peer (the call blocks).  Or a callback raised while the run-response was
    consumed: the call raises what the callback raised and the pull-response
    is not consumed.  Or the peer fell silent before any summary message
    reached the run-response: the call blocks and the pull-response is not
    consumed. *)
Theorem Session_run_protocol (stmt : statement) (text : string)
  (parameters : option (gmap string raw)) (w : world) :
  fresh w ->
  as_text stmt = Some text ->
  let k := calls w in
  let c := connection (session w) in
  let o := Session_run stmt parameters w in
  let c' := connection (session (after o)) in
  exists ds1 tail,
    Connection.log c' =
      Connection.log c
        ++ [Connection.Append (Connection.RUN text (default ∅ parameters))
              (run_response k);
            Connection.Append Connection.PULL_ALL (pull_all_response k);
            Connection.Send;
            Connection.Consume (run_response k)]
        ++ ds1 ++ tail
    /\ Forall (delivery_beside (pull_all_response k)) ds1
    /\ Connection.sent c' =
         Connection.sent c ++ Connection.outgoing c
           ++ [Connection.RUN text (default ∅ parameters);
               Connection.PULL_ALL]
    /\ ((exists header names ds2,
           last ds1
           = Some (Connection.Deliver (run_response k)
                     (Connection.SUCCESS header))
           /\ header !! "fields" = Some names
           /\ tail = Connection.Consume (pull_all_response k) :: ds2
           /\ Forall (delivery_to (pull_all_response k)) ds2
           /\ ((exists rows footer recs w',
                  o = Return recs w'
                  /\ ds2 = map (fun row =>
                                  Connection.Deliver (pull_all_response k)
                                    (Connection.RECORD row)) rows
                             ++ [Connection.Deliver (pull_all_response k)
                                   (Connection.SUCCESS footer)])
               \/ (exists rows metadata w',
                     o = Raise CypherError w'
                     /\ ds2 = map (fun row =>
                                     Connection.Deliver (pull_all_response k)
                                       (Connection.RECORD row)) rows
                                ++ [Connection.Deliver (pull_all_response k)
                                      (Connection.FAILURE metadata)])
               \/ (exists rows w',
                     o = Hang w'
                     /\ ds2 = map (fun row =>
                                     Connection.Deliver (pull_all_response k)
                                       (Connection.RECORD row)) rows)))
        \/ (exists x w' r m s,
              o = Raise x w'
              /\ tail = []
              /\ last ds1 = Some (Connection.Deliver r m)
              /\ Connection.dispatch (Closure.invoke k) r m s = inl x)
        \/ (exists w',
              o = Hang w'
              /\ tail = []
              /\ Forall (fun ev =>
                           forall m,
                             ev = Connection.Deliver (run_response k) m ->
                             Connection.summary m = false) ds1)).
Proof.
  intros Hfresh Htext k c o c'. subst c' o.
  rewrite (Session_run_unfold stmt text parameters w Htext). fold k.
  pose proof (prepared_log text (default ∅ parameters) w) as Hlog0.
  pose proof (prepared_sent text (default ∅ parameters) w) as [Hsent0 _].
  pose proof (prepared_responses text (default ∅ parameters) w) as Hq0.
  pose proof (pull_all_not_ahead w Hfresh) as Hbeside.
  pose proof (fresh_not_waiting w (run_response k) Hfresh eq_refl) as Hnew.
  fold c k in Hlog0, Hsent0, Hq0, Hbeside, Hnew.
  remember (prepared text (default ∅ parameters) w) as c0 eqn:Hc0.
  clear Hc0.
  assert (forall ds, Forall (delivered k (Connection.responses c
                                            ++ [run_response k])) ds ->
                     Forall (delivery_beside (pull_all_response k)) ds)
    as Hds1.
  { intros ds Hds. eapply Forall_impl; [exact Hds|].
    intros ev. now apply delivered_beside. }
  pose proof (consume_traced k (run_response k) (Connection.responses c)
                [pull_all_response k] c0 (started w)
                Hq0 (pull_all_not_behind k)) as Ht1.
  pose proof (drive_blocked k (run_response k) (Connection.incoming c0)
                (Connection.responses c) [pull_all_response k]
                (Connection.mk (Connection.incoming c0)
                   (Connection.responses c0) (Connection.outgoing c0)
                   (Connection.sent c0)
                   (Connection.log c0
                      ++ [Connection.Consume (run_response k)]))
                (started w) Hq0 Hnew (pull_all_not_behind k)) as Hb1.
  fold (Connection.consume (Closure.invoke k) (run_response k) c0 (started w))
    in Hb1.
  destruct (Connection.consume (Closure.invoke k) (run_response k) c0
              (started w)) as [c1 s1|x c1 s1|c1 s1]; cbn in Ht1, Hb1.
  - clear Hb1.
    destruct Ht1 as (ds & m & Hlog1 & Hsum & Hall1 & Hq1 & _ & Hsent1).
    assert (exists header names,
               m = Connection.SUCCESS header
               /\ header !! "fields" = Some names)
      as (header & names & -> & Hnames).
    { apply Forall_app in Hall1 as [_ Hm].
      apply Forall_cons in Hm as [Hm _].
      now apply (delivered_header k _ m Hm). }
    pose proof (consume_traced k (pull_all_response k) [] [] c1 s1 Hq1
                  (not_elem_of_nil _)) as Ht2.
    pose proof (drive_pull_all k (Connection.incoming c1)
                  (Connection.mk (Connection.incoming c1)
                     (Connection.responses c1) (Connection.outgoing c1)
                     (Connection.sent c1)
                     (Connection.log c1
                        ++ [Connection.Consume (pull_all_response k)]))
                  s1 Hq1) as Hp2.
    fold (Connection.consume (Closure.invoke k) (pull_all_response k) c1 s1)
      in Hp2.
    exists (ds ++ [Connection.Deliver (run_response k)
                     (Connection.SUCCESS header)]).
    destruct (Connection.consume (Closure.invoke k) (pull_all_response k)
                c1 s1) as [c2 s2|x c2 s2|c2 s2]; cbn in Ht2, Hp2 |- *.
    + destruct Ht2 as (_ & _ & _ & _ & _ & _ & _ & Hsent2).
      destruct Hp2 as (rows & footer & Hlog2).
      eexists (Connection.Consume (pull_all_response k) :: _).
      rewrite Hlog2, Hlog1, Hlog0, Hsent2, Hsent1, Hsent0.
      repeat rewrite <- app_assoc. cbn.
      split; [reflexivity|]. split; [now apply Hds1|].
      split; [reflexivity|]. left.
      exists header, names. eexists. rewrite last_snoc.
      split; [reflexivity|]. split; [exact Hnames|].
      split; [reflexivity|]. split.
      * apply Forall_app. split.
        -- apply Forall_forall. intros ev Hev.
           apply list_elem_of_fmap in Hev as (row & -> & _). eexists; eauto.
        -- constructor; [|constructor]. eexists; eauto.
      * left. exists rows, footer. eauto.
    + destruct Ht2 as (_ & _ & _ & _ & _ & _ & _ & _ & Hsent2).
      destruct Hp2 as (-> & rows & md & Hlog2).
      eexists (Connection.Consume (pull_all_response k) :: _).
      rewrite Hlog2, Hlog1, Hlog0, Hsent2, Hsent1, Hsent0.
      repeat rewrite <- app_assoc. cbn.
      split; [reflexivity|]. split; [now apply Hds1|].
      split; [reflexivity|]. left.
      exists header, names. eexists. rewrite last_snoc.
      split; [reflexivity|]. split; [exact Hnames|].
      split; [reflexivity|]. split.
      * apply Forall_app. split.
        -- apply Forall_forall. intros ev Hev.
           apply list_elem_of_fmap in Hev as (row & -> & _). eexists; eauto.
        -- constructor; [|constructor]. eexists; eauto.
      * right. left. exists rows, md. eauto.
    + destruct Ht2 as (_ & _ & _ & _ & Hsent2).
      destruct Hp2 as (rows & Hlog2).
      eexists (Connection.Consume (pull_all_response k) :: _).
      rewrite Hlog2, Hlog1, Hlog0, Hsent2, Hsent1, Hsent0.
      repeat rewrite <- app_assoc. cbn.
      split; [reflexivity|]. split; [now apply Hds1|].
      split; [reflexivity|]. left.
      exists header, names. eexists. rewrite last_snoc.
      split; [reflexivity|]. split; [exact Hnames|].
      split; [reflexivity|]. split.
      * apply Forall_forall. intros ev Hev.
        apply list_elem_of_fmap in Hev as (row & -> & _). eexists; eauto.
      * right. right. exists rows. eauto.
  - clear Hb1.
    destruct Ht1 as (ds & r & m & Hlog1 & Hall1 & Hr & Hd & _ & Hsent1).
    exists (ds ++ [Connection.Deliver r m]), []. cbn.
    rewrite Hlog1, Hlog0, Hsent1, Hsent0.
    repeat rewrite <- app_assoc. cbn. rewrite ?app_nil_r.
    split; [reflexivity|]. split.
    { apply Forall_app. split; [auto|].
      constructor; [|constructor]. exists r, m. split; [reflexivity|].
      now intros ->. }
    split; [reflexivity|]. right. left.
    exists x. eexists. exists r, m, s1. rewrite last_snoc. auto.
  - destruct Ht1 as (ds & Hlog1 & Hall1 & _ & Hsent1).
    destruct Hb1 as (ds' & Hlog1' & Hall1').
    rewrite Hlog1 in Hlog1'. apply app_inv_head in Hlog1'. subst ds'.
    exists ds, []. cbn.
    rewrite Hlog1, Hlog0, Hsent1, Hsent0.
    repeat rewrite <- app_assoc. cbn. rewrite ?app_nil_r.
    split; [reflexivity|]. split; [auto|].
    split; [reflexivity|]. right. right. eauto.
Qed.








(** ** Latency *)

(** C6 (as amended).  Under a clock that never runs backwards, every call
    of [run] that returns appends one sample whose six timestamps are set
    and in order, and whose latency triple is [overall = done - init],
    [network = end_recv - start_send], [wait = start_recv - end_send], each
    computed by the interpreter's subtraction; the three satisfy
    [wait <= network <= overall].  Nothing is assumed of the subtraction
    beyond what rounding keeps. *)
Theorem Session_run_latency (stmt : statement)
  (parameters : option (gmap string raw)) (w w' : world)
  (recs : list Record.t) :
  monotonic ->
  subtraction_monotone ->
  fresh w ->
  Session_run stmt parameters w = Return recs w' ->
  exists i ss es sr er d,
    bench_tests (session w') =
      bench_tests (session w)
        ++ [BenchTest.mk (Some i) (Some ss) (Some es) (Some sr) (Some er)
              (Some d)]
    /\ (time_le i ss /\ time_le ss es /\ time_le es sr /\ time_le sr er
        /\ time_le er d)
    /\ exists l,
         BenchTest.latency
           (BenchTest.mk (Some i) (Some ss) (Some es) (Some sr) (Some er)
              (Some d)) = inr l
         /\ Latency.overall l = time_sub d i
         /\ Latency.network l = time_sub er ss
         /\ Latency.wait l = time_sub sr es
         /\ time_le (Latency.wait l) (Latency.network l)
         /\ time_le (Latency.network l) (Latency.overall l).
Proof.
  intros Hmono Hsub Hfresh Hrun.
  destruct (Session_run_returns stmt parameters w w' recs Hfresh Hrun)
    as (_ & _ & _ & _ & _ & m & _ & _ & _ & _ & Hm & Hb & _).
  eexists _, _, _, _, _, _. split; [exact Hb|].
  pose proof (Hmono (ticks w) (ticks w + 1)%nat ltac:(lia)) as H1.
  pose proof (Hmono (ticks w + 1)%nat (ticks w + 2)%nat ltac:(lia)) as H2.
  pose proof (Hmono (ticks w + 2)%nat m ltac:(lia)) as H3.
  pose proof (Hmono m (S m) ltac:(lia)) as H4.
  pose proof (Hmono (S m) (S (S m)) ltac:(lia)) as H5.
  split; [repeat split; assumption|].
  eexists. split; [reflexivity|]. cbn.
  split; [reflexivity|]. split; [reflexivity|]. split; [reflexivity|].
  split.
  - apply Hsub; [exact H4|exact H2].
  - apply Hsub; [exact H5|exact H1].
Qed.

(** ** Closed transactions *)

Lemma is_closed_store (tx tx' : nat) (self : Transaction) (b : bool)
  (w : world) :
  heap w !! tx' = Some self ->
  is_closed tx w ->
  is_closed tx (store tx' (mkTransaction b (closed self)) w).
Proof.
  intros Hself (o & Ho & Hc). unfold is_closed, store. cbn.
  assert (tx' < length (heap w))%nat by (eapply lookup_lt_Some; eauto).
  destruct (decide (tx' = tx)) as [->|Hne].
  - rewrite list_lookup_insert_eq by assumption.
    rewrite Hself in Ho. injection Ho as <-. eauto.
  - rewrite list_lookup_insert_ne by assumption. eauto.
Qed.

Lemma is_closed_ext (tx : nat) (w w' : world) :
  heap w' = heap w -> is_closed tx w -> is_closed tx w'.
Proof. unfold is_closed. now intros ->. Qed.

Lemma is_closed_run (tx : nat) (stmt : statement)
  (parameters : option (gmap string raw)) (w : world) :
  is_closed tx w -> is_closed tx (after (Session_run stmt parameters w)).
Proof.
  apply is_closed_ext. apply (Session_run_frame stmt parameters w).
Qed.

(** What [close] has done when it returns. *)
Lemma Transaction_close_returns (tx : nat) (w w1 : world) :
  Transaction_close tx w = Return tt w1 ->
  exists self recs w',
    heap w !! tx = Some self
    /\ closed self = false
    /\ Session_run (Text (if success self then "COMMIT" else "ROLLBACK"))
         None w = Return recs w'
    /\ w1 = mkWorld
              (mkSession (connection (session w')) None
                 (bench_tests (session w')))
              (<[tx := mkTransaction (success self) true]> (heap w'))
              (ticks w') (calls w').
Proof.
  unfold Transaction_close.
  destruct (heap w !! tx) as [self|]; [|discriminate].
  destruct (closed self) eqn:Hclosed; [discriminate|].
  destruct (Session_run _ None w) as [recs w'|x w'|w'] eqn:Hrun;
    try discriminate.
  intros Heq. injection Heq as <-. exists self, recs, w'. auto.
Qed.

Lemma is_closed_close (tx tx' : nat) (w : world) :
  is_closed tx w -> is_closed tx (after (Transaction_close tx' w)).
Proof.
  intros Hc. unfold Transaction_close.
  destruct (heap w !! tx') as [self|] eqn:Hself; [|exact Hc].
  destruct (closed self) eqn:Hclosed; [exact Hc|].
  set (stmt := Text (if success self then "COMMIT" else "ROLLBACK")).
  pose proof (Session_run_frame stmt None w) as [Hh _].
  pose proof (is_closed_run tx stmt None w Hc) as Hrun.
  destruct (Session_run stmt None w) as [recs w'|x w'|w'];
    cbn in *; try exact Hrun.
  destruct Hrun as (o & Ho & Hoc). unfold is_closed. cbn.
  assert (tx' < length (heap w'))%nat
    by (rewrite Hh; eapply lookup_lt_Some; eauto).
  destruct (decide (tx' = tx)) as [->|Hne].
  - rewrite list_lookup_insert_eq by assumption. eauto.
  - rewrite list_lookup_insert_ne by assumption. eauto.
Qed.

Lemma is_closed_exec (tx : nat) (c : call) (w : world) :
  is_closed tx w -> is_closed tx (after (exec c w)).
Proof.
  intros Hc. destruct c as [stmt ps| |tx' stmt ps|tx'|tx'|tx'|tx' b]; cbn.
  - rewrite forget_after. now apply is_closed_run.
  - rewrite forget_after. unfold Session_new_transaction.
    destruct (transaction (session w)); [exact Hc|].
    unfold Transaction_new.
    pose proof (is_closed_run tx (Text "BEGIN") None w Hc) as Hrun.
    destruct (Session_run (Text "BEGIN") None w) as [recs w'|x w'|w'];
      cbn in *; try exact Hrun.
    destruct Hrun as (o & Ho & Hoc). exists o. cbn.
    split; [|exact Hoc]. now apply lookup_app_l_Some.
  - rewrite forget_after. unfold Transaction_run.
    destruct (heap w !! tx') as [self|]; [|exact Hc].
    destruct (closed self); [exact Hc|]. now apply is_closed_run.
  - unfold Transaction_commit.
    destruct (heap w !! tx') as [self|] eqn:Hself; [|exact Hc].
    apply is_closed_close. now apply is_closed_store.
  - unfold Transaction_rollback.
    destruct (heap w !! tx') as [self|] eqn:Hself; [|exact Hc].
    apply is_closed_close. now apply is_closed_store.
  - now apply is_closed_close.
  - unfold Transaction_set_success.
    destruct (heap w !! tx') as [self|] eqn:Hself; [|exact Hc].
    cbn. now apply is_closed_store.
Qed.

Lemma is_closed_exec_all (tx : nat) (cs : list call) (w : world) :
  is_closed tx w -> is_closed tx (exec_all cs w).
Proof.
  revert w. induction cs as [|c cs IH]; intros w Hc; [exact Hc|].
  pose proof (is_closed_exec tx c w Hc) as Hstep.
  cbn. destruct (exec c w); cbn in Hstep; auto.
Qed.

(** ** Responses left on the connection *)

Lemma drive_responses (k : nat) (self : Connection.Response Closure.name)
  (msgs : list Connection.message) :
  forall (c : Connection.t Closure.name) (s : Closure.state),
    Connection.responses
      (Connection.reached (Connection.drive (Closure.invoke k) self msgs c s))
    ⊆ Connection.responses c.
Proof.
  induction msgs as [|m msgs IH]; intros c s.
  - destruct (decide (self ∈ Connection.responses c)) as [Hin|Hout].
    + now rewrite drive_nil.
    + now rewrite drive_complete.
  - destruct (decide (self ∈ Connection.responses c)) as [Hin|Hout];
      [|now rewrite drive_complete].
    destruct (Connection.responses c) as [|r rest] eqn:Hc;
      [now apply elem_of_nil in Hin|].
    rewrite (drive_cons k self r rest) by assumption.
    assert ((if Connection.summary m then rest else r :: rest) ⊆ r :: rest)
      as Hsub.
    { destruct (Connection.summary m); [|reflexivity].
      intros x Hx. now right. }
    destruct (Connection.dispatch (Closure.invoke k) r m s) as [x|s1].
    + exact Hsub.
    + etransitivity; [apply IH|exact Hsub].
Qed.

Lemma fresh_ext (w w' : world) :
  connection (session w') = connection (session w) ->
  calls w' = calls w ->
  fresh w -> fresh w'.
Proof. unfold fresh. now intros -> ->. Qed.

Lemma fresh_waiting (w : world) (k : nat)
  (l : list (Connection.Response Closure.name)) :
  fresh w ->
  k = S (calls w) ->
  l ⊆ Connection.responses (connection (session w))
        ++ run_response (calls w) :: [pull_all_response (calls w)] ->
  Forall (fun r => (Connection.made_by r < k)%nat) l.
Proof.
  intros Hfresh -> Hsub. apply Forall_forall. intros r Hr.
  apply Hsub in Hr. apply elem_of_app in Hr as [Hr|Hr].
  - unfold fresh in Hfresh. rewrite Forall_forall in Hfresh.
    specialize (Hfresh r Hr). lia.
  - apply elem_of_cons in Hr as [->|Hr]; [cbn; lia|].
    apply list_elem_of_singleton in Hr as ->. cbn. lia.
Qed.

Lemma Session_run_fresh (stmt : statement)
  (parameters : option (gmap string raw)) (w : world) :
  fresh w -> fresh (after (Session_run stmt parameters w)).
Proof.
  intros Hfresh.
  destruct (as_text stmt) as [text|] eqn:Htext;
    [|unfold Session_run; now rewrite Htext].
  rewrite (Session_run_unfold stmt text parameters w Htext).
  unfold Connection.consume.
  set (k := calls w).
  pose proof (prepared_responses text (default ∅ parameters) w) as Hq0.
  fold k in Hq0.
  remember (prepared text (default ∅ parameters) w) as c0 eqn:Hc0. clear Hc0.
  match goal with
  | |- context [Connection.drive _ (run_response k) ?msgs ?c ?s] =>
      pose proof (drive_responses k (run_response k) msgs c s) as H1;
      destruct (Connection.drive (Closure.invoke k) (run_response k) msgs c s)
        as [c1 s1|x c1 s1|c1 s1]
  end; cbn in H1; rewrite Hq0 in H1;
    try (unfold fresh; cbn; now apply (fresh_waiting w)).
  match goal with
  | |- context [Connection.drive _ (pull_all_response k) ?msgs ?c ?s] =>
      pose proof (drive_responses k (pull_all_response k) msgs c s) as H2;
      destruct (Connection.drive (Closure.invoke k) (pull_all_response k)
                  msgs c s) as [c2 s2|x c2 s2|c2 s2]
  end; cbn in H2; unfold fresh; cbn;
    apply (fresh_waiting w); auto; etransitivity; eauto.
Qed.

Lemma fresh_store (tx : nat) (o : Transaction) (w : world) :
  fresh w -> fresh (store tx o w).
Proof. now apply fresh_ext. Qed.

Lemma fresh_close (tx : nat) (w : world) :
  fresh w -> fresh (after (Transaction_close tx w)).
Proof.
  intros Hfresh. unfold Transaction_close.
  destruct (heap w !! tx) as [self|]; [|exact Hfresh].
  destruct (closed self); [exact Hfresh|].
  set (stmt := Text (if success self then "COMMIT" else "ROLLBACK")).
  pose proof (Session_run_fresh stmt None w Hfresh) as Hrun.
  now destruct (Session_run stmt None w).
Qed.

Lemma fresh_exec (c : call) (w : world) :
  fresh w -> fresh (after (exec c w)).
Proof.
  intros Hfresh. destruct c as [stmt ps| |tx stmt ps|tx|tx|tx|tx b]; cbn.
  - rewrite forget_after. now apply Session_run_fresh.
  - rewrite forget_after. unfold Session_new_transaction.
    destruct (transaction (session w)); [exact Hfresh|].
    unfold Transaction_new.
    pose proof (Session_run_fresh (Text "BEGIN") None w Hfresh) as Hrun.
    now destruct (Session_run (Text "BEGIN") None w).
  - rewrite forget_after. unfold Transaction_run.
    destruct (heap w !! tx) as [self|]; [|exact Hfresh].
    destruct (closed self); [exact Hfresh|]. now apply Session_run_fresh.
  - unfold Transaction_commit.
    destruct (heap w !! tx) as [self|]; [|exact Hfresh].
    now apply fresh_close, fresh_store.
  - unfold Transaction_rollback.
    destruct (heap w !! tx) as [self|]; [|exact Hfresh].
    now apply fresh_close, fresh_store.
  - now apply fresh_close.
  - unfold Transaction_set_success.
    destruct (heap w !! tx) as [self|]; [|exact Hfresh].
    cbn. now apply fresh_store.
Qed.

Lemma fresh_exec_all (cs : list call) (w : world) :
  fresh w -> fresh (exec_all cs w).
Proof.
  revert w. induction cs as [|c cs IH]; intros w Hfresh; [exact Hfresh|].
  pose proof (fresh_exec c w Hfresh) as Hstep.
  cbn. destruct (exec c w); cbn in Hstep; auto.
Qed.

(** Every world a program reaches is fresh. *)
Lemma fresh_reachable (w : world) : reachable w -> fresh w.
Proof.
  intros (msgs & n & cs & ->). apply fresh_exec_all. constructor.
Qed.

(** ** Calls on a closed transaction *)

Lemma closed_transaction_calls (tx : nat) (o : Transaction) (w : world) :
  heap w !! tx = Some o ->
  closed o = true ->
  (forall stmt parameters,
      Transaction_run tx stmt parameters w = Raise AssertionError w) /\
  Transaction_close tx w = Raise AssertionError w /\
  Transaction_commit tx w =
    Raise AssertionError (store tx (mkTransaction true true) w) /\
  Transaction_rollback tx w =
    Raise AssertionError (store tx (mkTransaction false true) w).
Proof.
  intros Ho Hc.
  assert (tx < length (heap w))%nat by (eapply lookup_lt_Some; eauto).
  unfold Transaction_run, Transaction_commit, Transaction_rollback,
    Transaction_close.
  rewrite Ho, Hc. cbn.
  rewrite !list_lookup_insert_eq by assumption. cbn. auto.
Qed.

Lemma store_session (tx : nat) (o : Transaction) (w : world) :
  session (store tx o w) = session w.
Proof. reflexivity. Qed.

Lemma store_lookup (tx : nat) (o' o : Transaction) (w : world) :
  heap w !! tx = Some o' -> heap (store tx o w) !! tx = Some o.
Proof.
  intros Ho. cbn. apply list_lookup_insert_eq. eapply lookup_lt_Some; eauto.
Qed.

Lemma Transaction_commit_returns (tx : nat) (w w1 : world) :
  Transaction_commit tx w = Return tt w1 -> is_closed tx w1.
Proof.
  unfold Transaction_commit.
  destruct (heap w !! tx) as [self|] eqn:Hself; [|discriminate].
  intros Hclose. apply Transaction_close_returns in Hclose
    as (self' & recs & w' & Hs & _ & Hrun & ->).
  pose proof (Session_run_frame
                (Text (if success self' then "COMMIT" else "ROLLBACK")) None
                (store tx (mkTransaction true (closed self)) w)) as [Hh _].
  rewrite Hrun in Hh. cbn in Hh.
  exists (mkTransaction (success self') true). cbn. split; [|reflexivity].
  apply list_lookup_insert_eq. rewrite Hh, length_insert.
  eapply lookup_lt_Some; eauto.
Qed.

(** C4.  Once [commit()] has returned on a transaction, then whatever the
    program does next, every later [run], [commit], [rollback] or [close] on
    that transaction raises AssertionError, the invariant-violation error;
    the transaction stays closed and the call leaves the session (its
    connection, slot and samples) as it found it. *)
Theorem Transaction_terminal_after_commit (tx : nat) (w w1 : world)
  (cs : list call) :
  Transaction_commit tx w = Return tt w1 ->
  let w2 := exec_all cs w1 in
  is_closed tx w2 /\
  (forall stmt parameters,
      Transaction_run tx stmt parameters w2 = Raise AssertionError w2) /\
  Transaction_close tx w2 = Raise AssertionError w2 /\
  (exists w3,
      Transaction_commit tx w2 = Raise AssertionError w3
      /\ is_closed tx w3 /\ session w3 = session w2) /\
  (exists w3,
      Transaction_rollback tx w2 = Raise AssertionError w3
      /\ is_closed tx w3 /\ session w3 = session w2).
Proof.
  intros Hcommit w2.
  assert (is_closed tx w2) as Hclosed.
  { apply is_closed_exec_all. eapply Transaction_commit_returns; eauto. }
  split; [exact Hclosed|].
  destruct Hclosed as (o & Ho & Hc).
  destruct (closed_transaction_calls tx o w2 Ho Hc) as (Hr & Hcl & Hco & Hro).
  repeat split; auto.
  - eexists. split; [exact Hco|]. split; [|reflexivity].
    eexists. split; [eapply store_lookup; eauto|reflexivity].
  - eexists. split; [exact Hro|]. split; [|reflexivity].
    eexists. split; [eapply store_lookup; eauto|reflexivity].
Qed.

(** C9 (as amended).  [commit()] and [rollback()] on a closed transaction
    raise AssertionError, but only after having assigned [success]: to
    [True] for [commit], to [False] for [rollback].  Nothing else changes,
    and the transaction is, after the raise, in another state than before
    exactly when [success] held the opposite value. *)
Theorem Transaction_closed_not_atomic (tx : nat) (o : Transaction)
  (w : world) :
  heap w !! tx = Some o ->
  closed o = true ->
  (exists w1,
      Transaction_commit tx w = Raise AssertionError w1
      /\ heap w1 !! tx = Some (mkTransaction true true)
      /\ session w1 = session w
      /\ (heap w1 !! tx <> heap w !! tx <-> success o = false)) /\
  (exists w2,
      Transaction_rollback tx w = Raise AssertionError w2
      /\ heap w2 !! tx = Some (mkTransaction false true)
      /\ session w2 = session w
      /\ (heap w2 !! tx <> heap w !! tx <-> success o = true)).
Proof.
  intros Ho Hc.
  destruct (closed_transaction_calls tx o w Ho Hc) as (_ & _ & Hco & Hro).
  split; eexists; (split; [eassumption|]);
    rewrite (store_lookup tx o _ w Ho), Ho;
    (split; [reflexivity|]); (split; [reflexivity|]);
    destruct o as [[] []]; cbn in *; split; intros; congruence.
Qed.

(** ** How the slot changes *)

Lemma slot_after_close (tx : nat) (w : world) :
  slot_inv w ->
  transaction (session (after (Transaction_close tx w)))
    = transaction (session w) \/
  (transaction (session w) = Some tx /\
   exists w', Transaction_close tx w = Return tt w'
              /\ transaction (session w') = None /\ is_closed tx w').
Proof.
  intros Hinv. unfold Transaction_close.
  destruct (heap w !! tx) as [self|] eqn:Hself; [|now left].
  destruct (closed self) eqn:Hclosed; [now left|].
  set (stmt := Text (if success self then "COMMIT" else "ROLLBACK")).
  pose proof (Session_run_frame stmt None w) as [Hh Ht].
  destruct (Session_run stmt None w) as [recs w'|x w'|w'];
    cbn in *; [|now left..].
  right. split; [apply Hinv; red; eauto|].
  eexists. split; [reflexivity|]. split; [reflexivity|].
  exists (mkTransaction (success self) true). cbn. split; [|reflexivity].
  apply list_lookup_insert_eq. rewrite Hh. eapply lookup_lt_Some; eauto.
Qed.

Lemma slot_after_exec (c : call) (w : world) :
  slot_inv w ->
  transaction (session (after (exec c w))) = transaction (session w) \/
  (exists tx,
      transaction (session w) = Some tx
      /\ (c = transaction_close tx \/ c = transaction_commit tx
          \/ c = transaction_rollback tx)
      /\ exists w', exec c w = Return tt w'
                    /\ transaction (session w') = None /\ is_closed tx w') \/
  (c = session_new_transaction
   /\ transaction (session w) = None
   /\ exists tx w', Session_new_transaction w = Return tx w'
                    /\ transaction (session w') = Some tx).
Proof.
  intros Hinv. destruct c as [stmt ps| |tx stmt ps|tx|tx|tx|tx b]; cbn.
  - left. rewrite forget_after. apply Session_run_frame.
  - rewrite forget_after. unfold Session_new_transaction, Transaction_new.
    destruct (transaction (session w)) eqn:Hslot; [now left|].
    pose proof (Session_run_frame (Text "BEGIN") None w) as [_ Ht].
    rewrite Hslot in Ht.
    destruct (Session_run (Text "BEGIN") None w) as [recs w'|x w'|w'];
      cbn in *; [|now left..].
    right. right. repeat split. eauto.
  - left. rewrite forget_after. unfold Transaction_run.
    destruct (heap w !! tx) as [self|]; [|reflexivity].
    destruct (closed self); [reflexivity|]. apply Session_run_frame.
  - unfold Transaction_commit.
    destruct (heap w !! tx) as [self|] eqn:Hself; [|now left].
    destruct (slot_after_close tx (store tx (mkTransaction true (closed self))
                                     w))
      as [Hsame|(Hslot & w' & Hret & Hnone & Hcl)];
      [now apply slot_inv_store|now left|].
    right. left. exists tx. repeat split; eauto.
  - unfold Transaction_rollback.
    destruct (heap w !! tx) as [self|] eqn:Hself; [|now left].
    destruct (slot_after_close tx (store tx (mkTransaction false (closed self))
                                     w))
      as [Hsame|(Hslot & w' & Hret & Hnone & Hcl)];
      [now apply slot_inv_store|now left|].
    right. left. exists tx. repeat split; eauto.
  - destruct (slot_after_close tx w Hinv)
      as [Hsame|(Hslot & w' & Hret & Hnone & Hcl)]; [now left|].
    right. left. exists tx. repeat split; eauto.
  - left. unfold Transaction_set_success.
    now destruct (heap w !! tx).
Qed.

Lemma new_transaction_accepting (w : world) (rows : list (list raw))
  (header footer : gmap string (list string))
  (rest : list Connection.message) (names : list string) :
  transaction (session w) = None ->
  Connection.responses (connection (session w)) = [] ->
  Connection.incoming (connection (session w))
    = accepting rows header footer rest ->
  header !! "fields" = Some names ->
  exists tx w',
    Session_new_transaction w = Return tx w'
    /\ transaction (session w') = Some tx
    /\ is_open tx w'.
Proof.
  intros Hslot Hq Hin Hnames.
  destruct (Session_run_accepting (Text "BEGIN") "BEGIN" None w rows header
              footer rest names eq_refl Hq Hin Hnames) as (w' & Hrun & _).
  unfold Session_new_transaction, Transaction_new. rewrite Hslot, Hrun.
  eexists _, _. split; [reflexivity|]. split; [reflexivity|].
  exists (mkTransaction false false). cbn. split; [|reflexivity].
  now rewrite lookup_app_r, Nat.sub_diag by lia.
Qed.

(** C3.  In every world a program can reach: the slot of the session holds
    a transaction exactly while that transaction is open; only a
    [new_transaction()] that returns fills it, and only a [close()],
    [commit()] or [rollback()] of the very transaction it holds, returning,
    empties it.  While the slot is filled, [new_transaction()] raises
    AssertionError and changes nothing.  After a [rollback()] that returned
    the slot is empty and the transaction closed, so that
    [new_transaction()], given a peer that accepts BEGIN, returns a new open
    transaction and puts it in the slot. *)
Theorem Session_transaction_slot (w : world) :
  reachable w ->
  (forall tx, transaction (session w) = Some tx <-> is_open tx w) /\
  (forall c tx,
      transaction (session w) <> Some tx ->
      transaction (session (after (exec c w))) = Some tx ->
      c = session_new_transaction /\
      exists w', Session_new_transaction w = Return tx w') /\
  (forall c tx,
      transaction (session w) = Some tx ->
      transaction (session (after (exec c w))) <> Some tx ->
      (c = transaction_close tx \/ c = transaction_commit tx
       \/ c = transaction_rollback tx) /\
      exists w', exec c w = Return tt w'
                 /\ transaction (session w') = None /\ is_closed tx w') /\
  (forall tx,
      transaction (session w) = Some tx ->
      Session_new_transaction w = Raise AssertionError w) /\
  (forall tx w1,
      Transaction_rollback tx w = Return tt w1 ->
      transaction (session w1) = None /\ is_closed tx w1 /\
      forall rows header footer rest names,
        Connection.incoming (connection (session w1))
          = accepting rows header footer rest ->
        header !! "fields" = Some names ->
        exists tx' w2,
          Session_new_transaction w1 = Return tx' w2
          /\ transaction (session w2) = Some tx'
          /\ is_open tx' w2).
Proof.
  intros Hreach.
  pose proof (slot_inv_reachable w Hreach) as Hinv.
  pose proof (fresh_reachable w Hreach) as Hfresh.
  split; [exact Hinv|]. split; [|split; [|split]].
  - intros c tx Hbefore Hafter.
    destruct (slot_after_exec c w Hinv)
      as [Hsame|[(tx' & _ & _ & w' & Hret & Hnone & _)
                |(-> & _ & tx' & w' & Hret & Hsome)]].
    + congruence.
    + rewrite Hret in Hafter. cbn in Hafter. congruence.
    + cbn in Hafter. rewrite Hret in Hafter. cbn in Hafter.
      assert (tx' = tx) as -> by congruence. eauto.
  - intros c tx Hbefore Hafter.
    destruct (slot_after_exec c w Hinv)
      as [Hsame|[(tx' & Hslot & Hc & Hret)|(_ & Hnone & _)]].
    + congruence.
    + assert (tx' = tx) as -> by congruence. auto.
    + congruence.
  - intros tx Hslot. unfold Session_new_transaction. now rewrite Hslot.
  - intros tx w1. unfold Transaction_rollback.
    destruct (heap w !! tx) as [self|] eqn:Hself; [|discriminate].
    intros Hclose. apply Transaction_close_returns in Hclose
      as (self' & recs & w' & Hs & _ & Hrun & ->).
    pose proof (Session_run_frame
                  (Text (if success self' then "COMMIT" else "ROLLBACK")) None
                  (store tx (mkTransaction false (closed self)) w))
      as [Hh _].
    rewrite Hrun in Hh. cbn in Hh.
    apply Session_run_returns in Hrun
      as (_ & _ & _ & _ & _ & _ & _ & _ & _ & Hq & _);
      [|now apply fresh_store].
    split; [reflexivity|]. split.
    + exists (mkTransaction (success self') true). cbn.
      split; [|reflexivity].
      apply list_lookup_insert_eq. rewrite Hh, length_insert.
      eapply lookup_lt_Some; eauto.
    + intros rows header footer rest names Hin Hnames.
      now apply (new_transaction_accepting _ rows header footer rest names).
Qed.

End Properties.

(** * Further properties *)

Section Further.
Context {P : Platform}.


(** ** More on records *)

Lemma seq_getitem_outside {A : Type} (l : list A) (z : Z) :
  z < - Z.of_nat (length l) \/ Z.of_nat (length l) <= z ->
  seq_getitem l z = inl IndexError.
Proof.
  intros Hz. unfold seq_getitem.
  destruct (Z.ltb_spec z 0).
  - destruct (Z.ltb_spec (z + Z.of_nat (length l)) 0); [reflexivity|lia].
  - destruct (Z.ltb_spec z 0); [lia|].
    destruct (Z.leb_spec (Z.of_nat (length l)) z); [reflexivity|lia].
Qed.

Lemma seq_getitem_inr {A : Type} (l : list A) (z : Z) (x : A) :
  seq_getitem l z = inr x ->
  exists j : nat, l !! j = Some x /\
    (z = Z.of_nat j \/ z = Z.of_nat j - Z.of_nat (length l)).
Proof.
  unfold seq_getitem.
  set (k := if z <? 0 then z + Z.of_nat (length l) else z).
  assert (k = z \/ k = z + Z.of_nat (length l)) as Hk
    by (subst k; destruct (z <? 0); auto).
  destruct (Z.ltb_spec k 0); [discriminate|].
  destruct (Z.leb_spec (Z.of_nat (length l)) k); [discriminate|]. cbn.
  destruct (l !! Z.to_nat k) as [y|] eqn:Hy; [|discriminate].
  intros Heq. injection Heq as ->.
  exists (Z.to_nat k). split; [exact Hy|]. lia.
Qed.

Lemma seq_getitem_short {A : Type} (l : list A) (j : nat) :
  (length l <= j)%nat -> seq_getitem l (Z.of_nat j) = inl IndexError.
Proof. intros Hj. apply seq_getitem_outside. lia. Qed.

Lemma list_index_Some (l : list string) (x : string) (j : nat) :
  list_index l x = Some j ->
  l !! j = Some x /\ forall i, (i < j)%nat -> l !! i <> Some x.
Proof.
  revert j. induction l as [|y l IH]; intros j; cbn; [discriminate|].
  destruct (decide (y = x)) as [->|Hne].
  - intros Heq. injection Heq as <-. split; [reflexivity|]. intros i Hi. lia.
  - destruct (list_index l x) as [j'|] eqn:Hj'; cbn; [|discriminate].
    intros Heq. injection Heq as <-.
    destruct (IH j' eq_refl) as [Hl Hfirst]. split; [exact Hl|].
    intros [|i] Hi; cbn; [congruence|]. apply Hfirst. lia.
Qed.

Lemma list_index_found (l : list string) (i : nat) (x : string) :
  l !! i = Some x -> exists j, list_index l x = Some j /\ (j <= i)%nat.
Proof.
  revert i. induction l as [|y l IH]; intros i; [discriminate|].
  cbn. destruct (decide (y = x)) as [->|Hne].
  - intros _. exists O. split; [reflexivity|lia].
  - destruct i as [|i]; cbn; [congruence|]. intros Hi.
    destruct (IH i Hi) as (j & -> & Hj). exists (S j). split; [reflexivity|lia].
Qed.

Lemma ordinary_lookup_shadowed (r : Record.t) (name : string) :
  Record.shadowed name = true ->
  exists a, Record.ordinary_lookup r name = Some a
            /\ forall v, a <> Record.Field v.
Proof.
  unfold Record.shadowed, Record.ordinary_lookup. intros Hs.
  destruct (decide (name = "__fields__")); [eexists; split; [reflexivity|discriminate]|].
  destruct (decide (name = "__values__")); [eexists; split; [reflexivity|discriminate]|].
  destruct (decide (name ∈ Record.class_attrs)); [eexists; split; [reflexivity|discriminate]|].
  rewrite !bool_decide_eq_false_2 in Hs by assumption. cbn in Hs.
  rewrite Hs. eexists; split; [reflexivity|discriminate].
Qed.

Lemma shadowed_cases (name : string) :
  Record.shadowed name = true \/ Record.shadowed name = false.
Proof. destruct (Record.shadowed name); auto. Qed.

Lemma getitem_outside (r : Record.t) (z : Z) :
  z < - Z.of_nat (Record.__len__ r) \/ Z.of_nat (Record.__len__ r) <= z ->
  Record.__getitem__ r (Record.Int z) = inl IndexError.
Proof.
  intros Hz. cbn. now rewrite (seq_getitem_outside _ z Hz).
Qed.

(** X1.  [record[z]] with an integer outside [-n .. n-1], [n] the number of
    fields, raises IndexError, whatever the values and the field names. *)
Theorem Record_index_out_of_range (r : Record.t) (z : Z) :
  z < - Z.of_nat (Record.__len__ r) \/ Z.of_nat (Record.__len__ r) <= z ->
  Record.__getitem__ r (Record.Int z) = inl IndexError.
Proof. apply getitem_outside. Qed.

(** X2.  When several fields carry the same name, and that name is not
    the name of an attribute the Record object has anyway ([__fields__],
    [__values__], a method of the class, an attribute of [object]), a lookup
    of one of them by position and the lookup by name both go to the first
    field of that name: they evaluate alike, and to that field's value when
    it has one. *)
Theorem Record_duplicate_name_first (r : Record.t) (i : nat)
  (name : string) :
  Record.__fields__ r !! i = Some name ->
  Record.shadowed name = false ->
  exists j : nat,
    (j <= i)%nat
    /\ Record.__fields__ r !! j = Some name
    /\ (forall j', (j' < j)%nat -> Record.__fields__ r !! j' <> Some name)
    /\ Record.__getitem__ r (Record.Int (Z.of_nat i))
       = Record.__getitem__ r (Record.Int (Z.of_nat j))
    /\ Record.__getitem__ r (Record.Str name)
       = Record.__getitem__ r (Record.Int (Z.of_nat j))
    /\ forall v, Record.__values__ r !! j = Some v ->
         Record.__getitem__ r (Record.Int (Z.of_nat i))
         = inr (Record.Field v).
Proof.
  intros Hi Hs.
  destruct (list_index_found _ i name Hi) as (j & Hj & Hle).
  destruct (list_index_Some _ name j Hj) as [Hfj Hfirst].
  exists j. repeat split; auto; cbn.
  - now rewrite (seq_getitem_nat _ _ _ Hi), (seq_getitem_nat _ _ _ Hfj).
  - now rewrite (seq_getitem_nat _ _ _ Hfj).
  - intros v Hv. rewrite (seq_getitem_nat _ _ _ Hi).
    unfold Record.getattr, Record.__getattr__.
    rewrite (ordinary_lookup_unshadowed r name Hs), Hj.
    now rewrite (seq_getitem_nat _ _ _ Hv).
Qed.

(** X3.  A field whose name is also the name of an attribute the object
    has cannot be read: by name, as an attribute, or by any of its
    positions, the lookup succeeds and evaluates to that attribute, never to
    a field value. *)
Theorem Record_shadowed_field_unreachable (r : Record.t) (name : string) :
  Record.shadowed name = true ->
  exists a : Record.attr,
    (forall v, a <> Record.Field v)
    /\ Record.getattr r name = inr a
    /\ Record.__getitem__ r (Record.Str name) = inr a
    /\ forall i : nat,
         Record.__fields__ r !! i = Some name ->
         Record.__getitem__ r (Record.Int (Z.of_nat i)) = inr a.
Proof.
  intros Hs. destruct (ordinary_lookup_shadowed r name Hs) as (a & Ha & Hnf).
  assert (Record.getattr r name = inr a) as Hget
    by (unfold Record.getattr; now rewrite Ha).
  exists a. repeat split; auto.
  intros i Hi. cbn. now rewrite (seq_getitem_nat _ _ _ Hi).
Qed.

Lemma getattr_Field (r : Record.t) (name : string) (v : value) :
  Record.getattr r name = inr (Record.Field v) ->
  Record.shadowed name = false /\
  exists j, list_index (Record.__fields__ r) name = Some j
            /\ Record.__values__ r !! j = Some v.
Proof.
  intros Hget. destruct (shadowed_cases name) as [Hs|Hs].
  - destruct (ordinary_lookup_shadowed r name Hs) as (a & Ha & Hnf).
    unfold Record.getattr in Hget. rewrite Ha in Hget.
    injection Hget as ->. now destruct (Hnf v).
  - split; [exact Hs|].
    unfold Record.getattr, Record.__getattr__ in Hget.
    rewrite (ordinary_lookup_unshadowed r name Hs) in Hget.
    destruct (list_index (Record.__fields__ r) name) as [j|]; [|discriminate].
    exists j. split; [reflexivity|].
    destruct (seq_getitem (Record.__values__ r) (Z.of_nat j)) as [e|v'] eqn:Hv;
      [discriminate|].
    injection Hget as ->.
    apply seq_getitem_inr in Hv as (j' & Hj' & [Hz|Hz]).
    + apply Nat2Z.inj in Hz. now subst.
    + apply lookup_lt_Some in Hj'. lia.
Qed.

(** X4.  Whenever a lookup evaluates to a field value, that value is the
    one stored at the first position of the name looked up (the name given,
    or the name standing at the position given): a value beyond the last
    field, or one of a later field of the same name, is never returned. *)
Theorem Record_lookup_sound (r : Record.t) (i : Record.item) (v : value) :
  Record.__getitem__ r i = inr (Record.Field v) ->
  exists (j : nat) (name : string),
    Record.__fields__ r !! j = Some name
    /\ (forall j', (j' < j)%nat -> Record.__fields__ r !! j' <> Some name)
    /\ Record.__values__ r !! j = Some v
    /\ (j < Record.__len__ r)%nat
    /\ Record.shadowed name = false
    /\ (i = Record.Str name
        \/ exists z, i = Record.Int z
                     /\ seq_getitem (Record.__fields__ r) z = inr name).
Proof.
  intros Hget.
  assert (forall name,
            Record.getattr r name = inr (Record.Field v) ->
            exists j, Record.__fields__ r !! j = Some name
              /\ (forall j', (j' < j)%nat ->
                    Record.__fields__ r !! j' <> Some name)
              /\ Record.__values__ r !! j = Some v
              /\ (j < Record.__len__ r)%nat
              /\ Record.shadowed name = false) as Hattr.
  { intros name Hname.
    apply getattr_Field in Hname as (Hs & j & Hj & Hv).
    apply list_index_Some in Hj as [Hfj Hfirst].
    exists j. repeat split; auto.
    unfold Record.__len__. eapply lookup_lt_Some; eauto. }
  destruct i as [s|z|m e|]; cbn in Hget; try discriminate.
  - destruct (Hattr s Hget) as (j & H1 & H2 & H3 & H4 & H5).
    exists j, s. repeat split; auto.
  - destruct (seq_getitem (Record.__fields__ r) z) as [e|name] eqn:Hz;
      [discriminate|].
    destruct (Hattr name Hget) as (j & H1 & H2 & H3 & H4 & H5).
    exists j, name. repeat split; eauto.
Qed.

Lemma getitem_without_value (r : Record.t) (i : nat) (name : string) :
  NoDup (Record.__fields__ r) ->
  Record.__fields__ r !! i = Some name ->
  Record.shadowed name = false ->
  (length (Record.__values__ r) <= i)%nat ->
  Record.__getitem__ r (Record.Str name) = inl IndexError
  /\ Record.getattr r name = inl IndexError
  /\ Record.__getitem__ r (Record.Int (Z.of_nat i)) = inl IndexError.
Proof.
  intros Hnd Hi Hs Hshort.
  assert (Record.getattr r name = inl IndexError) as Hget.
  { unfold Record.getattr, Record.__getattr__.
    rewrite (ordinary_lookup_unshadowed r name Hs).
    rewrite (list_index_unique _ _ _ Hnd Hi).
    now rewrite (seq_getitem_short _ i Hshort). }
  repeat split; auto. cbn. now rewrite (seq_getitem_nat _ _ _ Hi).
Qed.

(** X5.  In a record with unique field names, a field that has no value
    (the record has fewer values than fields) and whose name is not the name
    of an attribute the Record object has anyway ([__fields__],
    [__values__], a method of the class, an attribute of [object]) is looked
    up with IndexError, not with the field-not-found error: by name, as an
    attribute, and by position. *)
Theorem Record_field_without_value (r : Record.t) (i : nat) (name : string) :
  NoDup (Record.__fields__ r) ->
  Record.__fields__ r !! i = Some name ->
  Record.shadowed name = false ->
  (length (Record.__values__ r) <= i)%nat ->
  Record.__getitem__ r (Record.Str name) = inl IndexError
  /\ Record.getattr r name = inl IndexError
  /\ Record.__getitem__ r (Record.Int (Z.of_nat i)) = inl IndexError.
Proof. apply getitem_without_value. Qed.

Lemma seq_getitem_inl {A : Type} (l : list A) (z : Z) (e : exn) :
  seq_getitem l z = inl e -> e = IndexError.
Proof.
  unfold seq_getitem. destruct (_ || _); [congruence|].
  destruct (l !! _); congruence.
Qed.

Lemma getitem_int_inl (r : Record.t) (z : Z) (e : exn) :
  Record.__getitem__ r (Record.Int z) = inl e -> e = IndexError.
Proof.
  cbn. destruct (seq_getitem (Record.__fields__ r) z) as [e'|name] eqn:Hz.
  - intros Heq. injection Heq as <-. eapply seq_getitem_inl; eauto.
  - apply seq_getitem_inr in Hz as (j & Hj & _).
    unfold Record.getattr, Record.__getattr__.
    destruct (Record.ordinary_lookup r name); [discriminate|].
    destruct (list_index_found _ j name Hj) as (j' & -> & _).
    destruct (seq_getitem (Record.__values__ r) (Z.of_nat j')) eqn:Hv;
      [|discriminate].
    intros Heq. injection Heq as <-. eapply seq_getitem_inl; eauto.
Qed.

Lemma iterate_returns (r : Record.t) (fuel : nat) :
  forall i : nat,
    (i <= Record.__len__ r)%nat ->
    (Record.__len__ r - i < fuel)%nat ->
    exists l, Record.iterate r fuel i = Some (inr l)
              /\ (length l <= Record.__len__ r - i)%nat.
Proof.
  induction fuel as [|fuel IH]; intros i Hi Hfuel; [lia|].
  cbn [Record.iterate].
  destruct (Record.__getitem__ r (Record.Int (Z.of_nat i))) as [e|a] eqn:Hget.
  - apply getitem_int_inl in Hget as ->. exists []. split; [reflexivity|].
    cbn. lia.
  - assert (i < Record.__len__ r)%nat as Hlt.
    { destruct (decide (i < Record.__len__ r)%nat) as [|Hge]; [assumption|].
      rewrite getitem_outside in Hget by lia. discriminate. }
    destruct (IH (S i)) as (l & -> & Hl); [lia..|].
    exists (a :: l). split; [reflexivity|]. cbn. lia.
Qed.

Lemma iterate_values (r : Record.t) (fuel : nat) :
  NoDup (Record.__fields__ r) ->
  Forall (fun name => Record.shadowed name = false) (Record.__fields__ r) ->
  forall i : nat,
    (i <= Record.__len__ r)%nat ->
    (Record.__len__ r - i < fuel)%nat ->
    Record.iterate r fuel i
    = Some (inr (Record.Field
                   <$> drop i (take (Record.__len__ r) (Record.__values__ r)))).
Proof.
  intros Hnd Hall.
  induction fuel as [|fuel IH]; intros i Hi Hfuel; [lia|].
  cbn [Record.iterate].
  destruct (decide (i < Record.__len__ r)%nat) as [Hlt|Hge].
  - destruct (lookup_lt_is_Some_2 (Record.__fields__ r) i Hlt) as [name Hf].
    assert (Record.shadowed name = false) as Hs.
    { rewrite Forall_forall in Hall. apply Hall.
      eapply list_elem_of_lookup_2; eauto. }
    destruct (Record.__values__ r !! i) as [v|] eqn:Hv.
    + rewrite (getitem_position r i name v Hnd Hf Hv Hs).
      rewrite IH by lia.
      rewrite (drop_S _ v i); [reflexivity|].
      now rewrite lookup_take_lt.
    + apply lookup_ge_None in Hv.
      destruct (getitem_without_value r i name Hnd Hf Hs Hv)
        as (_ & _ & ->).
      rewrite drop_ge; [reflexivity|]. rewrite length_take. lia.
  - rewrite getitem_outside by lia.
    rewrite drop_ge; [reflexivity|]. rewrite length_take. lia.
Qed.

(** X6.  Iterating over a record, as [tuple(record)] does, never raises:
    it yields at most as many items as there are fields.  When the field
    names are unique and none of them is the name of an attribute the object
    has, the items are the values standing under a field, in order, so that
    iteration stops without a word at the first field that has no value and
    passes over values beyond the last field. *)
Theorem Record_tuple (r : Record.t) :
  exists l : list Record.attr,
    Record.tuple r = Some (inr l)
    /\ (length l <= Record.__len__ r)%nat
    /\ (NoDup (Record.__fields__ r) ->
        Forall (fun name => Record.shadowed name = false)
          (Record.__fields__ r) ->
        l = Record.Field
              <$> take (Record.__len__ r) (Record.__values__ r)).
Proof.
  unfold Record.tuple. fold (Record.__len__ r).
  destruct (iterate_returns r (S (Record.__len__ r)) 0) as (l & Hl & Hlen);
    [lia..|].
  exists l. split; [exact Hl|]. split; [lia|].
  intros Hnd Hall.
  rewrite (iterate_values r _ Hnd Hall 0) in Hl by lia.
  injection Hl as <-. now rewrite drop_0.
Qed.

Lemma repr_items_enough (repr : value -> string) (values : list value)
  (fields : list string) :
  forall i : nat,
    (i + length fields <= length values)%nat ->
    Record.repr_items repr fields values i
    = inr (zip_with
             (fun field v => String.append field (String.append "=" (repr v)))
             fields (drop i values)).
Proof.
  induction fields as [|field fields IH]; intros i Hi; [reflexivity|].
  cbn in Hi. cbn [Record.repr_items].
  destruct (lookup_lt_is_Some_2 values i) as [v Hv]; [lia|].
  rewrite (seq_getitem_nat _ _ _ Hv), IH by lia.
  now rewrite (drop_S _ v i Hv).
Qed.

Lemma repr_items_short (repr : value -> string) (values : list value)
  (fields : list string) :
  forall i : nat,
    (i <= length values)%nat ->
    (length values < i + length fields)%nat ->
    Record.repr_items repr fields values i = inl IndexError.
Proof.
  induction fields as [|field fields IH]; intros i Hi Hshort;
    [cbn in Hshort; lia|].
  cbn in Hshort. cbn [Record.repr_items].
  destruct (decide (i < length values)%nat) as [Hlt|Hge].
  - destruct (lookup_lt_is_Some_2 values i Hlt) as [v Hv].
    rewrite (seq_getitem_nat _ _ _ Hv), IH by lia. reflexivity.
  - now rewrite seq_getitem_short by lia.
Qed.

(** X7.  [repr(record)] raises IndexError exactly when the record has fewer
    values than fields; otherwise it is ["<Record "], the items
    [field=repr(value)] of the fields in order, joined by single spaces, and
    [">"], with values beyond the last field left out. *)
Theorem Record_repr (repr : value -> string) (r : Record.t) :
  Record.__repr__ repr r =
  if decide (length (Record.__fields__ r) <= length (Record.__values__ r))%nat
  then
    inr (String.append "<Record "
           (String.append
              (String.concat " "
                 (zip_with
                    (fun field v =>
                       String.append field (String.append "=" (repr v)))
                    (Record.__fields__ r) (Record.__values__ r)))
              ">"))
  else inl IndexError.
Proof.
  unfold Record.__repr__. destruct (decide _) as [Hle|Hgt].
  - rewrite repr_items_enough by (cbn; lia). now rewrite drop_0.
  - rewrite repr_items_short by lia. reflexivity.
Qed.



(** ** Samples *)

Lemma same_io_refl (w : world) : same_io w w.
Proof. repeat split. Qed.

Lemma same_io_store (tx : nat) (o : Transaction) (w : world) :
  same_io w (store tx o w).
Proof. repeat split. Qed.

Lemma same_io_fresh (w w' : world) : same_io w w' -> fresh w -> fresh w'.
Proof.
  intros (Hc & _ & _ & Hk). apply fresh_ext; auto.
Qed.

(** As far as the connection, the samples and the counters go, a call does
    nothing or what one call of [Session.run] does. *)
Lemma exec_io (c : call) (w : world) :
  same_io w (after (exec c w)) \/
  exists stmt parameters w0,
    same_io w w0
    /\ same_io (after (Session_run stmt parameters w0)) (after (exec c w)).
Proof.
  assert (forall tx w0, same_io w w0 ->
            same_io w (after (Transaction_close tx w0)) \/
            exists stmt parameters w1,
              same_io w w1
              /\ same_io (after (Session_run stmt parameters w1))
                   (after (Transaction_close tx w0))) as Hclose.
  { intros tx w0 Hio. unfold Transaction_close.
    destruct (heap w0 !! tx) as [self|]; [|now left].
    destruct (closed self); [now left|].
    right.
    exists (Text (if success self then "COMMIT" else "ROLLBACK")), None, w0.
    split; [exact Hio|].
    destruct (Session_run _ None w0); cbn; now repeat split. }
  destruct c as [stmt ps| |tx stmt ps|tx|tx|tx|tx b]; cbn.
  - right. exists stmt, ps, w. rewrite forget_after.
    split; apply same_io_refl.
  - rewrite forget_after. unfold Session_new_transaction, Transaction_new.
    destruct (transaction (session w)); [left; apply same_io_refl|].
    right. exists (Text "BEGIN"), None, w. split; [apply same_io_refl|].
    destruct (Session_run (Text "BEGIN") None w); cbn; now repeat split.
  - rewrite forget_after. unfold Transaction_run.
    destruct (heap w !! tx) as [self|]; [|left; apply same_io_refl].
    destruct (closed self); [left; apply same_io_refl|].
    right. exists stmt, ps, w. split; apply same_io_refl.
  - unfold Transaction_commit.
    destruct (heap w !! tx) as [self|]; [|left; apply same_io_refl].
    apply Hclose, same_io_store.
  - unfold Transaction_rollback.
    destruct (heap w !! tx) as [self|]; [|left; apply same_io_refl].
    apply Hclose, same_io_store.
  - apply Hclose, same_io_refl.
  - unfold Transaction_set_success.
    destruct (heap w !! tx) as [self|]; [|left; apply same_io_refl].
    left. apply same_io_store.
Qed.

Lemma Session_run_counts (stmt : statement)
  (parameters : option (gmap string raw)) (w : world) :
  (bench_tests (session (after (Session_run stmt parameters w)))
     = bench_tests (session w)
   /\ (calls w <= calls (after (Session_run stmt parameters w)))%nat
   /\ forall recs w', Session_run stmt parameters w <> Return recs w') \/
  (exists b recs w',
      Session_run stmt parameters w = Return recs w'
      /\ bench_tests (session w') = bench_tests (session w) ++ [b]
      /\ calls w' = S (calls w)).
Proof.
  unfold Session_run. destruct (as_text stmt); [|left; now repeat split].
  cbn zeta. destruct (Connection.consume _ _ _ _);
    [|left; cbn; repeat split; (lia || discriminate)..].
  destruct (Connection.consume _ _ _ _);
    [|left; cbn; repeat split; (lia || discriminate)..].
  right. eexists _, _, _. repeat split.
Qed.

Lemma Session_run_sample (stmt : statement)
  (parameters : option (gmap string raw)) (w : world) :
  fresh w ->
  (bench_tests (session (after (Session_run stmt parameters w)))
     = bench_tests (session w)
   /\ (calls w <= calls (after (Session_run stmt parameters w)))%nat) \/
  (exists b,
      bench_tests (session (after (Session_run stmt parameters w)))
        = bench_tests (session w) ++ [b]
      /\ calls (after (Session_run stmt parameters w)) = S (calls w)
      /\ complete b).
Proof.
  intros Hfresh.
  destruct (Session_run_counts stmt parameters w)
    as [(Hb & Hc & _)|(b & recs & w' & Hrun & _)]; [now left|].
  right.
  destruct (Session_run_returns stmt parameters w w' recs Hfresh Hrun)
    as (_ & _ & _ & _ & _ & m & _ & _ & _ & _ & _ & Hb & _ & Hc).
  rewrite Hrun. cbn. eexists. split; [exact Hb|]. split; [exact Hc|].
  red. eauto 10.
Qed.

Lemma exec_sample (c : call) (w : world) :
  fresh w ->
  (bench_tests (session (after (exec c w))) = bench_tests (session w)
   /\ (calls w <= calls (after (exec c w)))%nat) \/
  (exists b,
      bench_tests (session (after (exec c w))) = bench_tests (session w) ++ [b]
      /\ calls (after (exec c w)) = S (calls w)
      /\ complete b).
Proof.
  intros Hfresh.
  destruct (exec_io c w)
    as [(_ & Hb & _ & Hc)
       |(stmt & ps & w0 & Hio & (_ & Hb1 & _ & Hc1))].
  - left. rewrite <- Hb, <- Hc. split; [reflexivity|lia].
  - pose proof (same_io_fresh w w0 Hio Hfresh) as Hfresh0.
    destruct Hio as (_ & Hb0 & _ & Hc0).
    rewrite <- Hb1, <- Hc1, Hb0, Hc0.
    now apply Session_run_sample.
Qed.

Lemma complete_latency (b : BenchTest.t) :
  complete b <-> exists l, BenchTest.latency b = inr l.
Proof.
  split.
  - intros (i & ss & es & sr & er & d & ->). cbn. eauto.
  - intros [l Hl]. unfold BenchTest.latency in Hl.
    destruct b as [[i|] [ss|] [es|] [sr|] [er|] [d|]]; try discriminate.
    red. eauto 10.
Qed.

Lemma samples_exec_all (cs : list call) (w : world) :
  fresh w ->
  Forall complete (bench_tests (session w)) ->
  (length (bench_tests (session w)) <= calls w)%nat ->
  Forall complete (bench_tests (session (exec_all cs w)))
  /\ (length (bench_tests (session (exec_all cs w)))
      <= calls (exec_all cs w))%nat.
Proof.
  revert w. induction cs as [|c cs IH]; intros w Hfresh Hall Hlen; [auto|].
  pose proof (fresh_exec c w Hfresh) as Hfresh'.
  assert (Forall complete (bench_tests (session (after (exec c w))))
          /\ (length (bench_tests (session (after (exec c w))))
              <= calls (after (exec c w)))%nat) as [Hall' Hlen'].
  { destruct (exec_sample c w Hfresh) as [(-> & Hc)|(b & -> & -> & Hb)].
    - split; [exact Hall|lia].
    - split; [apply Forall_app; auto|]. rewrite length_app. cbn. lia. }
  cbn. destruct (exec c w); cbn in *; auto.
Qed.

(** X14.  In every world a program can reach, each sample of
    [bench_tests] has its six timestamps, so that [latency()] succeeds on
    it, and there are at most as many samples as calls of [Session.run]
    were made. *)
Theorem session_samples_complete (w : world) :
  reachable w ->
  Forall (fun b => exists l, BenchTest.latency b = inr l)
    (bench_tests (session w))
  /\ (length (bench_tests (session w)) <= calls w)%nat.
Proof.
  intros (msgs & n & cs & ->).
  destruct (samples_exec_all cs (new_world msgs n)) as [Hall Hlen];
    [constructor|constructor|cbn; lia|].
  split; [|exact Hlen].
  eapply Forall_impl; [exact Hall|]. intros b. apply complete_latency.
Qed.

Lemma exec_prefix (c : call) (w : world) :
  bench_tests (session w) `prefix_of` bench_tests (session (after (exec c w))).
Proof.
  destruct (exec_io c w)
    as [(_ & Hb & _)|(stmt & ps & w0 & (_ & Hb0 & _) & (_ & Hb1 & _))].
  - now rewrite <- Hb.
  - rewrite <- Hb1, Hb0.
    destruct (Session_run_counts stmt ps w0)
      as [(-> & _)|(b & recs & w' & Hrun & Hb & _)]; [reflexivity|].
    rewrite Hrun. cbn. rewrite Hb. now apply prefix_app_r.
Qed.

(** X15.  The samples of a session are only ever appended to: whatever a
    program does, the samples there were before are the first samples there
    are after. *)
Theorem bench_tests_append_only (cs : list call) (w : world) :
  bench_tests (session w) `prefix_of` bench_tests (session (exec_all cs w)).
Proof.
  revert w. induction cs as [|c cs IH]; intros w; [reflexivity|].
  pose proof (exec_prefix c w) as Hstep. cbn.
  destruct (exec c w); cbn in Hstep; [| |exact Hstep];
    (etransitivity; [exact Hstep|apply IH]).
Qed.



(** ** More on sessions and transactions *)

Lemma drive_sent (k : nat) (self : Connection.Response Closure.name)
  (msgs : list Connection.message) :
  forall (c : Connection.t Closure.name) (s : Closure.state),
    Connection.sent
      (Connection.reached (Connection.drive (Closure.invoke k) self msgs c s))
    = Connection.sent c /\
    Connection.outgoing
      (Connection.reached (Connection.drive (Closure.invoke k) self msgs c s))
    = Connection.outgoing c.
Proof.
  induction msgs as [|m msgs IH]; intros c s.
  - destruct (decide (self ∈ Connection.responses c)) as [Hin|Hout].
    + now rewrite drive_nil.
    + now rewrite drive_complete.
  - destruct (decide (self ∈ Connection.responses c)) as [Hin|Hout];
      [|now rewrite drive_complete].
    destruct (Connection.responses c) as [|r rest] eqn:Hc;
      [now apply elem_of_nil in Hin|].
    rewrite (drive_cons k self r rest) by assumption.
    destruct (Connection.dispatch (Closure.invoke k) r m s) as [x|s1];
      [now split|].
    match goal with
    | |- context [Connection.drive _ _ _ ?c' ?s'] => apply (IH c' s')
    end.
Qed.

Lemma Session_run_sent (stmt : statement) (text : string)
  (parameters : option (gmap string raw)) (w : world) :
  as_text stmt = Some text ->
  Connection.sent
    (connection (session (after (Session_run stmt parameters w))))
  = Connection.sent (connection (session w))
      ++ Connection.outgoing (connection (session w))
      ++ [Connection.RUN text (default ∅ parameters); Connection.PULL_ALL]
  /\ Connection.outgoing
       (connection (session (after (Session_run stmt parameters w)))) = [].
Proof.
  intros Htext. rewrite (Session_run_unfold stmt text parameters w Htext).
  pose proof (prepared_sent text (default ∅ parameters) w) as [Hsent0 Hout0].
  remember (prepared text (default ∅ parameters) w) as c0 eqn:Hc0. clear Hc0.
  unfold Connection.consume.
  match goal with
  | |- context [Connection.drive ?f (run_response ?k) ?msgs ?c ?s] =>
      pose proof (drive_sent k (run_response k) msgs c s) as [H1 H1'];
      destruct (Connection.drive f (run_response k) msgs c s)
        as [c1 s1|x c1 s1|c1 s1]
  end; cbn in H1, H1' |- *; try (split; congruence).
  match goal with
  | |- context [Connection.drive ?f (pull_all_response ?k) ?msgs ?c ?s] =>
      pose proof (drive_sent k (pull_all_response k) msgs c s) as [H2 H2'];
      destruct (Connection.drive f (pull_all_response k) msgs c s)
        as [c2 s2|x c2 s2|c2 s2]
  end; cbn in H2, H2' |- *; split; congruence.
Qed.

Lemma store_store (tx : nat) (o o' : Transaction) (w : world) :
  store tx o (store tx o' w) = store tx o w.
Proof. unfold store. cbn. now rewrite list_insert_insert_eq. Qed.

(** X8.  [Transaction.close()] on an open transaction sends COMMIT when
    [success] is set and ROLLBACK otherwise, each followed by PULL_ALL and
    nothing else, whether the call then returns, raises or blocks;
    [commit()] sends COMMIT and [rollback()] sends ROLLBACK whatever
    [success] was before. *)
Theorem Transaction_close_statement (tx : nat) (self : Transaction)
  (w : world) :
  heap w !! tx = Some self ->
  closed self = false ->
  let c := connection (session w) in
  let told (text : string) (w' : world) :=
    Connection.sent (connection (session w'))
    = Connection.sent c ++ Connection.outgoing c
        ++ [Connection.RUN text ∅; Connection.PULL_ALL] in
  told (if success self then "COMMIT" else "ROLLBACK")
    (after (Transaction_close tx w))
  /\ told "COMMIT" (after (Transaction_commit tx w))
  /\ told "ROLLBACK" (after (Transaction_rollback tx w)).
Proof.
  intros Hself Hopen c told. subst told c. cbn beta.
  assert (tx < length (heap w))%nat by (eapply lookup_lt_Some; eauto).
  assert (forall (o : Transaction) (w0 : world),
            heap w0 !! tx = Some o -> closed o = false ->
            Connection.sent
              (connection (session (after (Transaction_close tx w0))))
            = Connection.sent (connection (session w0))
                ++ Connection.outgoing (connection (session w0))
                ++ [Connection.RUN (if success o then "COMMIT"
                                    else "ROLLBACK") ∅;
                    Connection.PULL_ALL]) as Hclose.
  { intros o w0 Ho Hc. unfold Transaction_close. rewrite Ho, Hc.
    pose proof (Session_run_sent
                  (Text (if success o then "COMMIT" else "ROLLBACK"))
                  (if success o then "COMMIT" else "ROLLBACK") None w0
                  eq_refl) as [Hsent _].
    now destruct (Session_run _ None w0). }
  split; [now apply Hclose|].
  unfold Transaction_commit, Transaction_rollback. rewrite Hself, Hopen.
  split.
  - now rewrite (Hclose (mkTransaction true false))
      by (try apply list_lookup_insert_eq; auto).
  - now rewrite (Hclose (mkTransaction false false))
      by (try apply list_lookup_insert_eq; auto).
Qed.

(** X9.  When [close()], [commit()] or [rollback()] on an open transaction
    raises, because the statement it runs fails, the transaction is still
    open and the slot of the session is as before: the flags of all
    transactions are those the call had before it ran the statement. *)
Theorem Transaction_close_failure (tx : nat) (self : Transaction)
  (w w' : world) (x : exn) :
  heap w !! tx = Some self ->
  closed self = false ->
  (Transaction_close tx w = Raise x w' ->
   heap w' = heap w
   /\ transaction (session w') = transaction (session w)) /\
  (Transaction_commit tx w = Raise x w' ->
   heap w' = <[tx := mkTransaction true false]> (heap w)
   /\ is_open tx w'
   /\ transaction (session w') = transaction (session w)) /\
  (Transaction_rollback tx w = Raise x w' ->
   heap w' = <[tx := mkTransaction false false]> (heap w)
   /\ is_open tx w'
   /\ transaction (session w') = transaction (session w)).
Proof.
  intros Hself Hopen.
  assert (tx < length (heap w))%nat by (eapply lookup_lt_Some; eauto).
  assert (forall (o : Transaction) (w0 : world),
            heap w0 !! tx = Some o -> closed o = false ->
            Transaction_close tx w0 = Raise x w' ->
            heap w' = heap w0
            /\ transaction (session w') = transaction (session w0))
    as Hclose.
  { intros o w0 Ho Hc. unfold Transaction_close. rewrite Ho, Hc.
    pose proof (Session_run_frame
                  (Text (if success o then "COMMIT" else "ROLLBACK")) None w0)
      as Hframe.
    destruct (Session_run _ None w0); try discriminate.
    intros Heq. injection Heq as <- <-. exact Hframe. }
  split; [now apply (Hclose self)|].
  unfold Transaction_commit, Transaction_rollback. rewrite Hself, Hopen.
  assert (forall b, heap (store tx (mkTransaction b false) w) !! tx
                    = Some (mkTransaction b false)) as Hstored.
  { intros b. cbn. now apply list_lookup_insert_eq. }
  split; intros Hraise.
  - apply (Hclose (mkTransaction true false)) in Hraise as [Hh Ht];
      [|apply Hstored|reflexivity].
    split; [exact Hh|]. split; [|exact Ht].
    exists (mkTransaction true false). rewrite Hh. split; [|reflexivity].
    now apply list_lookup_insert_eq.
  - apply (Hclose (mkTransaction false false)) in Hraise as [Hh Ht];
      [|apply Hstored|reflexivity].
    split; [exact Hh|]. split; [|exact Ht].
    exists (mkTransaction false false). rewrite Hh. split; [|reflexivity].
    now apply list_lookup_insert_eq.
Qed.

(** X10.  When [new_transaction()] raises, for the slot being taken or for
    BEGIN failing, no transaction has been created and the slot is as
    before, so that a failed BEGIN leaves the way free for another
    attempt. *)
Theorem Session_new_transaction_failure (w w' : world) (x : exn) :
  Session_new_transaction w = Raise x w' ->
  heap w' = heap w /\ transaction (session w') = transaction (session w).
Proof.
  unfold Session_new_transaction, Transaction_new.
  destruct (transaction (session w)) eqn:Hslot.
  - intros Heq. injection Heq as <- <-. auto.
  - pose proof (Session_run_frame (Text "BEGIN") None w) as Hframe.
    destruct (Session_run (Text "BEGIN") None w); try discriminate.
    intros Heq. injection Heq as <- <-. rewrite Hslot in Hframe. exact Hframe.
Qed.

(** X11.  Only the last value assigned to [success] counts, and
    [commit()] and [rollback()] do not look at it: an assignment followed by
    another leaves the world the second alone would, and [commit()] or
    [rollback()] after an assignment end as they do without it. *)
Theorem Transaction_success_last_wins (tx : nat) (b1 b2 : bool) (w : world) :
  after (Transaction_set_success tx b2
           (after (Transaction_set_success tx b1 w)))
  = after (Transaction_set_success tx b2 w)
  /\ Transaction_commit tx (after (Transaction_set_success tx b1 w))
     = Transaction_commit tx w
  /\ Transaction_rollback tx (after (Transaction_set_success tx b1 w))
     = Transaction_rollback tx w.
Proof.
  unfold Transaction_set_success, Transaction_commit, Transaction_rollback.
  destruct (heap w !! tx) as [self|] eqn:Hself; cbn; rewrite ?Hself; auto.
  assert (tx < length (heap w))%nat by (eapply lookup_lt_Some; eauto).
  rewrite !list_lookup_insert_eq by assumption. cbn.
  now rewrite !store_store.
Qed.

(** X12.  Running a statement, through the session or through a
    transaction, never changes a transaction or the slot of the session,
    however the call ends. *)
Theorem run_leaves_transactions (stmt : statement)
  (parameters : option (gmap string raw)) (tx : nat) (w : world) :
  (heap (after (Session_run stmt parameters w)) = heap w
   /\ transaction (session (after (Session_run stmt parameters w)))
      = transaction (session w))
  /\ heap (after (Transaction_run tx stmt parameters w)) = heap w
  /\ transaction (session (after (Transaction_run tx stmt parameters w)))
     = transaction (session w).
Proof.
  pose proof (Session_run_frame stmt parameters w) as Hframe.
  split; [exact Hframe|]. unfold Transaction_run.
  destruct (heap w !! tx) as [self|]; [|now split].
  destruct (closed self); [now split|exact Hframe].
Qed.

(** X13.  In every world a program can reach at most one transaction is
    open. *)
Theorem one_open_transaction (w : world) (tx tx' : nat) :
  reachable w -> is_open tx w -> is_open tx' w -> tx = tx'.
Proof.
  intros Hreach Ho Ho'. pose proof (slot_inv_reachable w Hreach) as Hinv.
  apply Hinv in Ho, Ho'. congruence.
Qed.


(** ** Statements one after another *)

(** What a call does when nothing waits on the connection and the peer
    accepts the statement, in full. *)
Lemma Session_run_accepted (stmt : statement) (text : string)
  (parameters : option (gmap string raw)) (w : world)
  (rows : list (list raw)) (header footer : gmap string (list string))
  (rest : list Connection.message) (names : list string) :
  as_text stmt = Some text ->
  Connection.responses (connection (session w)) = [] ->
  Connection.incoming (connection (session w))
    = accepting rows header footer rest ->
  header !! "fields" = Some names ->
  exists w',
    Session_run stmt parameters w =
      Return (map (Record.mk names) (map (map hydrated) rows)) w'
    /\ Connection.incoming (connection (session w')) = rest
    /\ Connection.responses (connection (session w')) = []
    /\ Connection.outgoing (connection (session w')) = []
    /\ Connection.sent (connection (session w'))
       = Connection.sent (connection (session w))
           ++ Connection.outgoing (connection (session w))
           ++ [Connection.RUN text (default ∅ parameters);
               Connection.PULL_ALL]
    /\ heap w' = heap w
    /\ transaction (session w') = transaction (session w).
Proof.
  intros Htext Hq Hin Hnames.
  destruct (Session_run_accepting stmt text parameters w rows header footer
              rest names Htext Hq Hin Hnames) as (w' & Hrun & Hrest).
  exists w'. split; [exact Hrun|]. split; [exact Hrest|].
  assert (fresh w) as Hfresh by (unfold fresh; rewrite Hq; constructor).
  pose proof (Session_run_returns stmt parameters w w' _ Hfresh Hrun)
    as (_ & _ & _ & _ & _ & _ & _ & _ & _ & Hq' & _).
  pose proof (Session_run_sent stmt text parameters w Htext) as [Hsent Hout].
  pose proof (Session_run_frame stmt parameters w) as [Hh Ht].
  rewrite Hrun in Hsent, Hout, Hh, Ht. cbn in Hsent, Hout, Hh, Ht.
  auto 10.
Qed.

(** X16.  Statements run one after another do not get in each other's
    way: when nothing waits on the connection and the peer accepts two
    statements in turn, the first call returns the records of the first
    answer, leaves nothing waiting, and the second call returns the records
    of the second answer. *)
Theorem Session_run_twice (stmt1 stmt2 : statement) (text1 text2 : string)
  (parameters1 parameters2 : option (gmap string raw)) (w : world)
  (rows1 rows2 : list (list raw))
  (header1 footer1 header2 footer2 : gmap string (list string))
  (rest : list Connection.message) (names1 names2 : list string) :
  as_text stmt1 = Some text1 ->
  as_text stmt2 = Some text2 ->
  Connection.responses (connection (session w)) = [] ->
  Connection.incoming (connection (session w))
    = accepting rows1 header1 footer1
        (accepting rows2 header2 footer2 rest) ->
  header1 !! "fields" = Some names1 ->
  header2 !! "fields" = Some names2 ->
  exists w1 w2,
    Session_run stmt1 parameters1 w =
      Return (map (fun row => Record.mk names1 (map hydrated row)) rows1) w1
    /\ Session_run stmt2 parameters2 w1 =
         Return (map (fun row => Record.mk names2 (map hydrated row)) rows2) w2
    /\ Connection.incoming (connection (session w2)) = rest
    /\ Connection.responses (connection (session w2)) = []
    /\ length (bench_tests (session w2))
       = S (S (length (bench_tests (session w)))).
Proof.
  intros Htext1 Htext2 Hq Hin Hnames1 Hnames2.
  destruct (Session_run_accepted stmt1 text1 parameters1 w rows1 header1
              footer1 _ names1 Htext1 Hq Hin Hnames1)
    as (w1 & Hrun1 & Hin1 & Hq1 & _).
  destruct (Session_run_accepted stmt2 text2 parameters2 w1 rows2 header2
              footer2 rest names2 Htext2 Hq1 Hin1 Hnames2)
    as (w2 & Hrun2 & Hin2 & Hq2 & _).
  exists w1, w2. rewrite Hrun1, Hrun2, !map_map.
  repeat split; auto.
  destruct (Session_run_counts stmt1 parameters1 w)
    as [(_ & _ & Hno)|(b1 & r1 & w1' & Hr1 & Hb1 & _)];
    [now destruct (Hno _ _ Hrun1)|].
  destruct (Session_run_counts stmt2 parameters2 w1)
    as [(_ & _ & Hno)|(b2 & r2 & w2' & Hr2 & Hb2 & _)];
    [now destruct (Hno _ _ Hrun2)|].
  rewrite Hrun1 in Hr1. injection Hr1 as _ <-.
  rewrite Hrun2 in Hr2. injection Hr2 as _ <-.
  rewrite Hb2, Hb1, !length_app. cbn. lia.
Qed.

(** X17.  When nothing waits on the connection and the peer answers the
    RUN request with a success whose metadata has no entry ["fields"],
    [run] raises KeyError: it returns no records and adds no sample. *)
Theorem Session_run_header_without_fields (stmt : statement) (text : string)
  (parameters : option (gmap string raw)) (w : world)
  (metadata : gmap string (list string)) (rest : list Connection.message) :
  as_text stmt = Some text ->
  Connection.responses (connection (session w)) = [] ->
  Connection.incoming (connection (session w))
    = Connection.SUCCESS metadata :: rest ->
  metadata !! "fields" = None ->
  exists w',
    Session_run stmt parameters w = Raise KeyError w'
    /\ bench_tests (session w') = bench_tests (session w)
    /\ Connection.incoming (connection (session w')) = rest.
Proof.
  intros Htext Hq Hin Hnone.
  rewrite (Session_run_unfold stmt text parameters w Htext).
  set (k := calls w). unfold Connection.consume.
  rewrite prepared_responses, Hq. cbn [app].
  replace (Connection.incoming (prepared text (default ∅ parameters) w))
    with (Connection.SUCCESS metadata :: rest) by (rewrite <- Hin; reflexivity).
  rewrite (drive_cons k _ (run_response k) [pull_all_response k])
    by (auto; set_solver).
  rewrite dispatch_run_response. unfold Closure.on_header. rewrite Hnone.
  eexists. split; [reflexivity|]. split; reflexivity.
Qed.


(** ** Blocks *)


End Further.

(** * The properties at work on the example platform *)

#[local] Existing Instance example.

Lemma Session_run_records_witness :
  fresh one_row /\
  as_text (P := example) (Text "RETURN 1 AS x") = Some "RETURN 1 AS x" /\
  exists w',
    Session_run (Text "RETURN 1 AS x") None one_row
      = Return [Record.mk ["x"] [10]] w'
    /\ Connection.incoming (connection (session w')) = [].
Proof.
  assert (fresh one_row) as Hfresh by constructor.
  split; [exact Hfresh|]. split; [reflexivity|].
  destruct (Session_run_records (Text "RETURN 1 AS x") "RETURN 1 AS x" None
              one_row Hfresh eq_refl) as [Hforward _].
  exact (Hforward [[1]] header_x ∅ [] ["x"] eq_refl eq_refl eq_refl).
Defined.

Lemma Session_run_records_counterexample :
  exists w',
    Session_run (Text "RETURN 1 AS x") None wide_row
      = Return [Record.mk ["x"] [10; 20]] w'
    /\ length (Record.__values__ (Record.mk (P := example) ["x"] [10; 20]))
       <> Record.__len__ (Record.mk (P := example) ["x"] [10; 20]).
Proof.
  eexists. split; [vm_compute; reflexivity|]. cbn. lia.
Qed.



Lemma Session_transaction_slot_witness :
  reachable in_transaction /\
  transaction (session in_transaction) = Some 0%nat /\
  Session_new_transaction in_transaction = Raise AssertionError in_transaction /\
  forall w1,
    Transaction_rollback 0%nat in_transaction = Return tt w1 ->
    transaction (session w1) = None.
Proof.
  assert (reachable in_transaction) as Hreach.
  { exists three_statements, 0%nat, [session_new_transaction]. reflexivity. }
  destruct (Session_transaction_slot in_transaction Hreach)
    as (_ & _ & _ & Hsecond & Hrollback).
  split; [exact Hreach|]. split; [reflexivity|].
  split; [exact (Hsecond 0%nat eq_refl)|].
  intros w1 Hw1. exact (proj1 (Hrollback 0%nat w1 Hw1)).
Defined.

Lemma Transaction_terminal_after_commit_witness :
  Transaction_commit 0%nat in_transaction = Return tt committed /\
  Transaction_close 0%nat
    (exec_all [transaction_set_success 0%nat false] committed)
  = Raise AssertionError
      (exec_all [transaction_set_success 0%nat false] committed).
Proof.
  assert (Transaction_commit 0%nat in_transaction = Return tt committed)
    as Hcommit by (vm_compute; reflexivity).
  split; [exact Hcommit|].
  exact (proj1 (proj2 (proj2
           (Transaction_terminal_after_commit 0%nat in_transaction committed
              [transaction_set_success 0%nat false] Hcommit)))).
Defined.

Lemma Session_run_protocol_witness :
  fresh one_row /\
  as_text (Text "RETURN 1 AS x") = Some "RETURN 1 AS x" /\
  exists ds1 tail,
    Connection.log
      (connection
         (session (after (Session_run (Text "RETURN 1 AS x") None one_row))))
    = [Connection.Append (Connection.RUN "RETURN 1 AS x" ∅) (run_response 0);
       Connection.Append Connection.PULL_ALL (pull_all_response 0);
       Connection.Send;
       Connection.Consume (run_response 0)] ++ ds1 ++ tail
    /\ Forall (delivery_beside (pull_all_response 0)) ds1
    /\ Connection.sent
         (connection
            (session
               (after (Session_run (Text "RETURN 1 AS x") None one_row))))
       = [Connection.RUN "RETURN 1 AS x" ∅; Connection.PULL_ALL].
Proof.
  assert (fresh one_row) as Hfresh by constructor.
  split; [exact Hfresh|]. split; [reflexivity|].
  destruct (Session_run_protocol (Text "RETURN 1 AS x") "RETURN 1 AS x" None
              one_row Hfresh eq_refl)
    as (ds1 & tail & Hlog & Hbeside & Hsent & _).
  exists ds1, tail. split; [exact Hlog|]. split; [exact Hbeside|exact Hsent].
Defined.

Lemma Session_run_protocol_counterexample :
  as_text undecodable = None
  /\ Session_run undecodable None one_row = Raise UnicodeDecodeError one_row
  /\ Connection.log
       (connection (session (after (Session_run undecodable None one_row))))
     = []
  /\ Connection.sent
       (connection (session (after (Session_run undecodable None one_row))))
     = [].
Proof. vm_compute. repeat split. Qed.

Lemma binary64_monotonic : monotonic (P := binary64).
Proof.
  intros i j Hij. cbn [time_le perf_counter binary64].
  unfold binary64_clock.
  assert (binary64_ordered = true) as Hc by (vm_compute; reflexivity).
  unfold binary64_ordered in Hc.
  rewrite List.forallb_forall in Hc.
  specialize (Hc (Nat.min i 5) ltac:(apply List.in_seq; lia)).
  rewrite List.forallb_forall in Hc.
  specialize (Hc (Nat.min j 5) ltac:(apply List.in_seq; lia)).
  rewrite (proj2 (Nat.leb_le _ _)) in Hc by lia. exact Hc.
Qed.

Lemma binary64_subtraction_monotone : subtraction_monotone (P := binary64).
Proof.
  intros i j k l Hij Hlk.
  cbn [time_le time_sub perf_counter binary64] in *.
  unfold binary64_clock in *.
  assert (binary64_differences = true) as Hc by (vm_compute; reflexivity).
  unfold binary64_differences in Hc.
  rewrite List.forallb_forall in Hc.
  specialize (Hc (Nat.min i 5) ltac:(apply List.in_seq; lia)).
  rewrite List.forallb_forall in Hc.
  specialize (Hc (Nat.min j 5) ltac:(apply List.in_seq; lia)).
  rewrite List.forallb_forall in Hc.
  specialize (Hc (Nat.min k 5) ltac:(apply List.in_seq; lia)).
  rewrite List.forallb_forall in Hc.
  specialize (Hc (Nat.min l 5) ltac:(apply List.in_seq; lia)).
  rewrite Hij, Hlk in Hc. exact Hc.
Qed.

Lemma Session_run_latency_witness :
  monotonic (P := binary64) /\ subtraction_monotone (P := binary64) /\
  fresh one_row_binary64 /\
  exists w' : @world binary64,
    Session_run (Text "RETURN 1 AS x") None one_row_binary64
      = Return [Record.mk (P := binary64) ["x"] [10]] w' /\
  exists (i ss es sr er d : float) (l : @Latency.t binary64),
    bench_tests (session w')
      = [BenchTest.mk (P := binary64) (Some i) (Some ss) (Some es) (Some sr)
           (Some er) (Some d)]
    /\ (PrimFloat.leb i ss = true /\ PrimFloat.leb ss es = true
        /\ PrimFloat.leb es sr = true /\ PrimFloat.leb sr er = true
        /\ PrimFloat.leb er d = true)
    /\ BenchTest.latency
         (BenchTest.mk (P := binary64) (Some i) (Some ss) (Some es) (Some sr)
            (Some er) (Some d)) = inr l
    /\ PrimFloat.leb (Latency.wait l) (Latency.network l) = true
    /\ PrimFloat.leb (Latency.network l) (Latency.overall l) = true.
Proof.
  assert (fresh one_row_binary64) as Hfresh by constructor.
  split; [exact binary64_monotonic|].
  split; [exact binary64_subtraction_monotone|]. split; [exact Hfresh|].
  assert (Session_run (Text "RETURN 1 AS x") None one_row_binary64
          = Return [Record.mk (P := binary64) ["x"] [10]]
              (after (Session_run (Text "RETURN 1 AS x") None
                        one_row_binary64)))
    as Hrun by (vm_compute; reflexivity).
  eexists. split; [exact Hrun|].
  destruct (Session_run_latency (Text "RETURN 1 AS x") None one_row_binary64
              _ _ binary64_monotonic binary64_subtraction_monotone Hfresh
              Hrun)
    as (i & ss & es & sr & er & d & Hb & Hord & l & Hl & _ & _ & _ & Hwn
        & Hno).
  exists i, ss, es, sr, er, d, l.
  split; [exact Hb|]. split; [exact Hord|]. split; [exact Hl|].
  split; [exact Hwn|exact Hno].
Defined.

Lemma Session_run_latency_counterexample :
  exists (w' : @world binary64) (b : @BenchTest.t binary64)
         (l : @Latency.t binary64) (send : float),
    Session_run (Text "RETURN 1 AS x") None one_row_binary64
      = Return [Record.mk (P := binary64) ["x"] [10]] w'
    /\ bench_tests (session w') = [b]
    /\ BenchTest.ordered b
    /\ BenchTest.latency b = inr l
    /\ BenchTest.send_phase b = Some send
    /\ send = 3%float
    /\ Latency.overall l = 25%float
    /\ PrimFloat.add (PrimFloat.add send (Latency.wait l)) (Latency.network l)
       = 23%float
    /\ PrimFloat.eqb
         (PrimFloat.add (PrimFloat.add send (Latency.wait l))
            (Latency.network l))
         (Latency.overall l) = false.
Proof.
  exists (after (Session_run (Text "RETURN 1 AS x") None one_row_binary64)),
    (BenchTest.mk (P := binary64) (Some 0%float) (Some 1%float)
       (Some 4%float) (Some 9%float) (Some 16%float) (Some 25%float)),
    (Latency.mk (P := binary64) 25%float 15%float 5%float), 3%float.
  split; [vm_compute; reflexivity|]. split; [vm_compute; reflexivity|].
  split; [|repeat split].
  exists 0%float, 1%float, 4%float, 9%float, 16%float, 25%float.
  repeat split.
Qed.

Lemma Record_unknown_name_or_index_kind_witness :
  ("y" ∉ Record.__fields__ record_x) /\
  Record.shadowed "y" = false /\
  Record.__getitem__ record_x (Record.Str "y") = inl AttributeError /\
  Record.__getitem__ record_x (Record.Float 5 (-1)) = inl TypeError.
Proof.
  assert ("y" ∉ Record.__fields__ record_x) as Hname.
  { intros Hin. apply list_elem_of_singleton in Hin. discriminate. }
  split; [exact Hname|]. split; [reflexivity|].
  destruct (Record_unknown_name_or_index_kind record_x "y" Hname eq_refl)
    as (Hitem & _ & Hfloat & _).
  split; [exact Hitem|exact (Hfloat 5 (-1))].
Defined.

Lemma Record_unknown_name_counterexample :
  ("__fields__" ∉ Record.__fields__ record_x) /\
  Record.__getitem__ record_x (Record.Str "__fields__")
    = inr (Record.FieldsAttr ["x"]) /\
  Record.getattr record_x "__fields__" = inr (Record.FieldsAttr ["x"]).
Proof.
  split; [|split; reflexivity].
  intros Hin. apply list_elem_of_singleton in Hin. discriminate.
Qed.

Lemma Record_lookups_agree_witness :
  NoDup (Record.__fields__ record_xy) /\
  Record.__fields__ record_xy !! 1%nat = Some "y" /\
  Record.__values__ record_xy !! 1%nat = Some 2 /\
  Record.shadowed "y" = false /\
  Record.__getitem__ record_xy (Record.Int 1) = inr (Record.Field 2) /\
  Record.__getitem__ record_xy (Record.Str "y") = inr (Record.Field 2) /\
  Record.getattr record_xy "y" = inr (Record.Field 2).
Proof.
  assert (NoDup (Record.__fields__ record_xy)) as Hnd.
  { refine (bool_decide_unpack _ _); vm_compute; exact I. }
  split; [exact Hnd|]. split; [reflexivity|]. split; [reflexivity|].
  split; [reflexivity|].
  exact (Record_lookups_agree record_xy 1 "y" 2 Hnd eq_refl eq_refl eq_refl).
Defined.

Lemma Record_lookups_agree_counterexample :
  NoDup (Record.__fields__ record_values) /\
  Record.__fields__ record_values !! 0%nat = Some "__values__" /\
  Record.__values__ record_values !! 0%nat = Some 7 /\
  Record.__getitem__ record_values (Record.Int 0)
    = inr (Record.ValuesAttr [7]) /\
  Record.__getitem__ record_values (Record.Str "__values__")
    = inr (Record.ValuesAttr [7]) /\
  Record.getattr record_values "__values__" = inr (Record.ValuesAttr [7]) /\
  Record.ValuesAttr [7] <> Record.Field 7.
Proof.
  split; [refine (bool_decide_unpack _ _); vm_compute; exact I|].
  repeat split; discriminate.
Qed.

Lemma Record_negative_index_witness :
  NoDup (Record.__fields__ record_xy) /\
  Forall (fun name => Record.shadowed name = false)
    (Record.__fields__ record_xy) /\
  length (Record.__values__ record_xy) = length (Record.__fields__ record_xy)
  /\ (1 <= 1 <= Record.__len__ record_xy)%nat /\
  exists v,
    Record.__getitem__ record_xy (Record.Int (-1)) = inr (Record.Field v)
    /\ Record.__getitem__ record_xy (Record.Int 1) = inr (Record.Field v).
Proof.
  assert (NoDup (Record.__fields__ record_xy)) as Hnd.
  { refine (bool_decide_unpack _ _); vm_compute; exact I. }
  assert (Forall (fun name => Record.shadowed name = false)
            (Record.__fields__ record_xy)) as Hall.
  { repeat constructor. }
  assert (1 <= 1 <= Record.__len__ record_xy)%nat as Hk.
  { cbn. lia. }
  split; [exact Hnd|]. split; [exact Hall|]. split; [reflexivity|].
  split; [exact Hk|].
  destruct (Record_negative_index record_xy 1 Hnd Hall eq_refl Hk)
    as (v & _ & Hneg & Hpos).
  exists v. split; [exact Hneg|exact Hpos].
Defined.

Lemma Record_negative_index_counterexample :
  NoDup (Record.__fields__ record_len) /\
  Record.__len__ record_len = 2%nat /\
  Record.__values__ record_len !! 1%nat = Some 2 /\
  Record.__getitem__ record_len (Record.Int (-1))
    = inr (Record.ClassAttr "__len__") /\
  Record.ClassAttr "__len__" <> Record.Field 2.
Proof.
  split; [refine (bool_decide_unpack _ _); vm_compute; exact I|].
  repeat split; discriminate.
Qed.

Lemma Transaction_closed_not_atomic_witness :
  heap committed !! 0%nat = Some (mkTransaction true true) /\
  closed (mkTransaction true true) = true /\
  exists w2,
    Transaction_rollback 0%nat committed = Raise AssertionError w2
    /\ heap w2 !! 0%nat = Some (mkTransaction false true).
Proof.
  assert (heap committed !! 0%nat = Some (mkTransaction true true)) as Ho
    by reflexivity.
  split; [exact Ho|]. split; [reflexivity|].
  destruct (Transaction_closed_not_atomic 0%nat (mkTransaction true true)
              committed Ho eq_refl) as (_ & w2 & Hro & Hafter & _).
  exists w2. split; [exact Hro|exact Hafter].
Defined.

Lemma Transaction_closed_not_atomic_counterexample :
  heap committed !! 0%nat = Some (mkTransaction true true) /\
  Transaction_commit 0%nat committed = Raise AssertionError committed.
Proof. split; vm_compute; reflexivity. Qed.

(** ** The further properties at work *)

Lemma Record_index_out_of_range_witness :
  (2 < - Z.of_nat (Record.__len__ record_xy)
   \/ Z.of_nat (Record.__len__ record_xy) <= 2)
  /\ Record.__getitem__ record_xy (Record.Int 2) = inl IndexError.
Proof.
  assert (2 < - Z.of_nat (Record.__len__ record_xy)
          \/ Z.of_nat (Record.__len__ record_xy) <= 2) as Hz
    by (right; cbn; lia).
  split; [exact Hz|]. exact (Record_index_out_of_range record_xy 2 Hz).
Defined.

Lemma Record_duplicate_name_first_witness :
  Record.__fields__ record_dup !! 1%nat = Some "x"
  /\ Record.shadowed "x" = false
  /\ Record.__getitem__ record_dup (Record.Int 1) = inr (Record.Field 1).
Proof.
  split; [reflexivity|]. split; [reflexivity|].
  destruct (Record_duplicate_name_first record_dup 1 "x" eq_refl eq_refl)
    as (j & Hle & Hj & Hfirst & _ & _ & Hvalue).
  assert (j = 0%nat) as ->.
  { destruct j as [|j]; [reflexivity|].
    now destruct (Hfirst 0%nat ltac:(lia)). }
  exact (Hvalue 1 eq_refl).
Defined.

Lemma Record_shadowed_field_unreachable_witness :
  Record.shadowed "__len__" = true
  /\ exists a,
       Record.__getitem__ record_len (Record.Int 1) = inr a
       /\ forall v, a <> Record.Field v.
Proof.
  split; [reflexivity|].
  destruct (Record_shadowed_field_unreachable record_len "__len__" eq_refl)
    as (a & Hnf & _ & _ & Hpos).
  exists a. split; [exact (Hpos 1%nat eq_refl)|exact Hnf].
Defined.

Lemma Record_lookup_sound_witness :
  Record.__getitem__ record_xy (Record.Int (-1)) = inr (Record.Field 2)
  /\ exists j name,
       Record.__fields__ record_xy !! j = Some name
       /\ Record.__values__ record_xy !! j = Some 2.
Proof.
  split; [reflexivity|].
  destruct (Record_lookup_sound record_xy (Record.Int (-1)) 2 eq_refl)
    as (j & name & Hf & _ & Hv & _).
  exists j, name. split; [exact Hf|exact Hv].
Defined.

Lemma Record_field_without_value_witness :
  NoDup (Record.__fields__ record_short)
  /\ Record.__fields__ record_short !! 1%nat = Some "y"
  /\ Record.shadowed "y" = false
  /\ (length (Record.__values__ record_short) <= 1)%nat
  /\ Record.__getitem__ record_short (Record.Str "y") = inl IndexError.
Proof.
  assert (NoDup (Record.__fields__ record_short)) as Hnd.
  { refine (bool_decide_unpack _ _); vm_compute; exact I. }
  assert (length (Record.__values__ record_short) <= 1)%nat as Hshort
    by (cbn; lia).
  split; [exact Hnd|]. split; [reflexivity|]. split; [reflexivity|].
  split; [exact Hshort|].
  exact (proj1 (Record_field_without_value record_short 1 "y" Hnd eq_refl
                  eq_refl Hshort)).
Defined.

Lemma Transaction_close_statement_witness :
  heap in_transaction !! 0%nat = Some (mkTransaction false false)
  /\ closed (mkTransaction false false) = false
  /\ Connection.sent
       (connection (session (after (Transaction_commit 0%nat in_transaction))))
     = [Connection.RUN "BEGIN" ∅; Connection.PULL_ALL;
        Connection.RUN "COMMIT" ∅; Connection.PULL_ALL].
Proof.
  split; [reflexivity|]. split; [reflexivity|].
  exact (proj1 (proj2 (Transaction_close_statement 0%nat
                         (mkTransaction false false) in_transaction
                         eq_refl eq_refl))).
Defined.

Lemma Transaction_close_failure_witness :
  heap commit_refused !! 0%nat = Some (mkTransaction false false)
  /\ closed (mkTransaction false false) = false
  /\ Transaction_commit 0%nat commit_refused
     = Raise CypherError (after (Transaction_commit 0%nat commit_refused))
  /\ is_open 0%nat (after (Transaction_commit 0%nat commit_refused))
  /\ transaction (session (after (Transaction_commit 0%nat commit_refused)))
     = Some 0%nat.
Proof.
  assert (Transaction_commit 0%nat commit_refused
          = Raise CypherError (after (Transaction_commit 0%nat commit_refused)))
    as Hraise by (vm_compute; reflexivity).
  split; [reflexivity|]. split; [reflexivity|]. split; [exact Hraise|].
  destruct (Transaction_close_failure 0%nat (mkTransaction false false)
              commit_refused
              (after (Transaction_commit 0%nat commit_refused)) CypherError
              eq_refl eq_refl)
    as (_ & Hcommit & _).
  destruct (Hcommit Hraise) as (_ & Hopen & Hslot).
  split; [exact Hopen|exact Hslot].
Defined.

Lemma Session_new_transaction_failure_witness :
  Session_new_transaction refusing
  = Raise CypherError (after (Session_new_transaction refusing))
  /\ heap (after (Session_new_transaction refusing)) = []
  /\ transaction (session (after (Session_new_transaction refusing))) = None.
Proof.
  assert (Session_new_transaction refusing
          = Raise CypherError (after (Session_new_transaction refusing)))
    as Hraise by (vm_compute; reflexivity).
  split; [exact Hraise|].
  exact (Session_new_transaction_failure refusing _ CypherError Hraise).
Defined.

Lemma one_open_transaction_witness :
  reachable in_transaction
  /\ is_open 0%nat in_transaction
  /\ forall tx, is_open tx in_transaction -> tx = 0%nat.
Proof.
  assert (reachable in_transaction) as Hreach.
  { exists three_statements, 0%nat, [session_new_transaction]. reflexivity. }
  assert (is_open 0%nat in_transaction) as Hopen.
  { exists (mkTransaction false false). split; reflexivity. }
  split; [exact Hreach|]. split; [exact Hopen|].
  intros tx Htx.
  exact (one_open_transaction in_transaction tx 0%nat Hreach Htx Hopen).
Defined.

Lemma session_samples_complete_witness :
  reachable committed
  /\ length (bench_tests (session committed)) = 2%nat
  /\ Forall (fun b => exists l, BenchTest.latency b = inr l)
       (bench_tests (session committed)).
Proof.
  assert (reachable committed) as Hreach.
  { exists three_statements, 0%nat,
      [session_new_transaction; transaction_commit 0%nat]. reflexivity. }
  split; [exact Hreach|]. split; [reflexivity|].
  exact (proj1 (session_samples_complete committed Hreach)).
Defined.

Lemma Session_run_twice_witness :
  Connection.responses (connection (session two_answers)) = []
  /\ exists w1 w2,
       Session_run (Text "RETURN 1 AS x") None two_answers
         = Return [Record.mk ["x"] [10]] w1
       /\ Session_run (Text "UNWIND [2, 3] AS x RETURN x") None w1
          = Return [Record.mk ["x"] [20]; Record.mk ["x"] [30]] w2.
Proof.
  split; [reflexivity|].
  destruct (Session_run_twice (Text "RETURN 1 AS x")
              (Text "UNWIND [2, 3] AS x RETURN x") _ _ None None two_answers
              [[1]] [[2]; [3]] header_x ∅ header_x ∅ [] ["x"] ["x"]
              eq_refl eq_refl eq_refl eq_refl eq_refl eq_refl)
    as (w1 & w2 & Hrun1 & Hrun2 & _).
  exists w1, w2. split; [exact Hrun1|exact Hrun2].
Defined.

Lemma Session_run_header_without_fields_witness :
  Connection.responses (connection (session headerless)) = []
  /\ (∅ : gmap string (list string)) !! "fields" = None
  /\ exists w',
       Session_run (Text "RETURN 1 AS x") None headerless = Raise KeyError w'.
Proof.
  split; [reflexivity|]. split; [reflexivity|].
  destruct (Session_run_header_without_fields (Text "RETURN 1 AS x") _ None
              headerless ∅ [] eq_refl eq_refl eq_refl eq_refl)
    as (w' & Hrun & _).
  exists w'. exact Hrun.
Defined.

